(** * The iterative variable-rendering engine of checkov

    A shallow embedding of
    [checkov/common/graph/variable_rendering/renderer.py]
    (class [VariableRenderer]) and the properties of its grouping
    function, of its value cache and of its main rendering loop. *)

From Stdlib Require Import DecimalString DecimalZ DecimalPos.
From stdpp Require Import gmap strings list.

Open Scope Z_scope.

(** ** Edges *)

(** Modelled from the spec: the class [Edge], which the renderer imports from
    [checkov.common.graph.graph_builder], is not part of the source file.  An
    edge is the triple (origin, destination, label) of two vertex indices and
    a string, and two edges are equal when the three components are.  The
    renderer reads [edge.origin] and [edge.label], compares edges with [in]
    and puts them in a [set]. *)
Record Edge : Type := mkEdge {
  origin : Z;
  dest : Z;
  label : string;
}.

#[global] Instance Edge_eq_dec : EqDecision Edge.
Proof. solve_decision. Defined.

(** ** Python values used by the renderer *)

(** [str(n)] for a Python [int], as an f-string renders [{edge.origin}]. *)
Definition py_str_int (n : Z) : string := NilZero.string_of_int (Z.to_int n).

(** Truth value of the result of [dict.get]: [None] and the empty list are
    falsy, a list with an element is truthy. *)
Definition py_truthy {A : Type} (r : option (list A)) : bool :=
  match r with
  | None => false
  | Some [] => false
  | Some (_ :: _) => true
  end.

(** A Python [dict] whose iteration order matters: entries in insertion
    order, every key once. *)
Module PyDict.
Section ordered_dict.
Context {K V : Type} `{EqDecision K}.

(** [d.get(k)] *)
Fixpoint get (d : list (K * V)) (k : K) : option V :=
  match d with
  | [] => None
  | (k', v) :: d' => if decide (k' = k) then Some v else get d' k
  end.

(** [d[k] = v]: an existing key keeps its position, a new key goes last. *)
Fixpoint set (d : list (K * V)) (k : K) (v : V) : list (K * V) :=
  match d with
  | [] => [(k, v)]
  | (k', v') :: d' =>
      if decide (k' = k) then (k, v) :: d' else (k', v') :: set d' k v
  end.

(** [list(d.values())] *)
Definition values (d : list (K * V)) : list V := d.*2.
End ordered_dict.
End PyDict.

(** ** [group_edges_by_origin_and_label] *)

Section grouping.
(** [calculate_hash] is imported from [checkov.common.graph.graph_builder.utils]
    and is not part of the source file: the grouping is studied for every
    function from strings to strings. *)
Variable calculate_hash : string → string.

(** [calculate_hash(f"{edge.origin}{edge.label}")] *)
Definition origin_and_label_hash (edge : Edge) : string :=
  calculate_hash (py_str_int (origin edge) +:+ label edge).

(** [edge_groups[k].append(edge)]; the key is present when the renderer
    reaches this statement. *)
Definition append_at (edge_groups : list (string * list Edge))
    (k : string) (edge : Edge) : list (string * list Edge) :=
  match PyDict.get edge_groups k with
  | Some l => PyDict.set edge_groups k (l ++ [edge])
  | None => edge_groups
  end.

(** One turn of the [for edge in edges] loop. *)
Definition group_step (edge_groups : list (string * list Edge))
    (edge : Edge) : list (string * list Edge) :=
  let h := origin_and_label_hash edge in
  let edge_groups :=
    if negb (py_truthy (PyDict.get edge_groups h))
    then PyDict.set edge_groups h []
    else edge_groups in
  append_at edge_groups h edge.

Definition group_edges_by_origin_and_label (edges : list Edge)
    : list (list Edge) :=
  PyDict.values (fold_left group_step edges []).

(** Every key once, no empty bucket, and a bucket holds edges of its key. *)
Definition well_grouped (d : list (string * list Edge)) : Prop :=
  NoDup d.*1 ∧
  ∀ k l, (k, l) ∈ d → l ≠ [] ∧ ∀ e, e ∈ l → origin_and_label_hash e = k.
End grouping.

(** ** The value cache built by [__init__] *)

(** Python lists and dicts are objects: a list holds references, and
    [[{}] * n] repeats one reference [n] times.  The store maps an address
    (an index) to the dict object that lives there. *)
Module ReplaceCache.
Section store.
(** The cached values ([Any] in the source). *)
Context {Value : Type}.

Definition addr : Type := nat.
Definition store : Type := list (gmap string Value).

(** The dict display [{}]: a new, empty dict object. *)
Definition new_dict (h : store) : addr * store := (length h, h ++ [∅]).

(** [l * n] on a list of references. *)
Definition list_mul (l : list addr) (n : nat) : list addr :=
  mjoin (replicate n l).

(** [self.replace_cache = [{}] * len(local_graph.vertices)]: the display
    is evaluated once, before the repetition. *)
Definition init_replace_cache (number_of_vertices : nat) (h : store)
    : list addr * store :=
  let '(a, h) := new_dict h in
  (list_mul [a] number_of_vertices, h).

(** The contents of [replace_cache[v]]; [None] is [IndexError]. *)
Definition slot (replace_cache : list addr) (v : nat) (h : store)
    : option (gmap string Value) :=
  a ← replace_cache !! v; h !! a.

(** [replace_cache[u][k] = x], the mutation of the contents of a slot;
    [None] is [IndexError]. *)
Definition slot_setitem (replace_cache : list addr) (u : nat) (k : string)
    (x : Value) (h : store) : option store :=
  a ← replace_cache !! u;
  d ← h !! a;
  Some (<[a := <[k := x]> d]> h).
End store.
End ReplaceCache.

(** ** Outcomes of effectful code *)

Inductive PyExn : Type :=
| IndexError
| StrategyError (msg : string).

(** A call either returns a value or raises; the state it leaves behind is
    kept in both cases. *)
Inductive outcome (St A : Type) : Type :=
| Ret (a : A) (s : St)
| Raise (e : PyExn) (s : St).
Arguments Ret {St A} a s.
Arguments Raise {St A} e s.

(** The records the renderer sends to [logging]. *)
Inductive LogRecord : Type :=
| InfoEvaluating (number_of_edges : nat)
    (* logging.info(f"evaluating {len(edges_to_render)} edges") *)
| WarningReachedBound
    (* logging.warning(f"Reached 50 graph edge iterations, breaking.") *)
| InfoDoneEvaluatingEdges
    (* logging.info("done evaluating edges") *)
| InfoDoneNonRendered.
    (* logging.info("done evaluate_non_rendered_values") *)

#[global] Instance LogRecord_eq_dec : EqDecision LogRecord.
Proof. solve_decision. Defined.

(** ** The graph collaborator *)

(** What the renderer asks of [self.local_graph].  The class [LocalGraph] is
    not part of the source file; the renderer is studied for every value of
    this record.  [World] is the mutable part of the program that the
    evaluation strategy and the graph write: the vertex configurations and
    the contents of the value cache. *)
Record LocalGraph (World : Type) : Type := mkLocalGraph {
  get_vertices_with_degrees_conditions : (Z → bool) → (Z → bool) → list Z;
  get_in_edges : list Z → list Edge;
  out_edges : gmap Z (list Edge);
  update_vertices_configs : World → World;
}.
Arguments get_vertices_with_degrees_conditions {World} _ _ _.
Arguments get_in_edges {World} _ _.
Arguments out_edges {World} _.
Arguments update_vertices_configs {World} _ _.

Section graph_of_edges.
Context {World : Type}.
Variable number_of_vertices : nat.
Variable edges : list Edge.

(** The vertices are the indices of [local_graph.vertices]. *)
Definition vertex_indices : list Z := seqZ 0 (Z.of_nat number_of_vertices).

Definition out_edges_of (v : Z) : list Edge :=
  filter (λ e, origin e = v) edges.

Definition in_edges_of (v : Z) : list Edge :=
  filter (λ e, dest e = v) edges.

Definition out_degree (v : Z) : Z := Z.of_nat (length (out_edges_of v)).
Definition in_degree (v : Z) : Z := Z.of_nat (length (in_edges_of v)).

(** Modelled from the spec: the methods of [LocalGraph] are not part of the
    source file.  [vertices_with_degree] gives the vertices whose out-degree
    and in-degree satisfy the two predicates, [in_edges] the edges that
    enter the given vertices, [out_edges_of] the edges that leave a vertex. *)
Definition graph_of_edges (update : World → World) : LocalGraph World := {|
  get_vertices_with_degrees_conditions out_degree_cond in_degree_cond :=
    filter (λ v, out_degree_cond (out_degree v) = true
                 ∧ in_degree_cond (in_degree v) = true) vertex_indices;
  get_in_edges end_vertices := end_vertices ≫= in_edges_of;
  out_edges := list_to_map ((λ v, (v, out_edges_of v)) <$> vertex_indices);
  update_vertices_configs := update;
|}.
End graph_of_edges.

(** ** The renderer *)

Definition MAX_NUMBER_OF_LOOPS : Z := 50.

(** The fields of [self] that a rendering pass reads, and the two methods a
    subclass provides: the abstract [evaluate_vertex_attribute_from_edge]
    and [evaluate_non_rendered_values] (whose body in the base class is
    [pass]). *)
Record VariableRenderer (World : Type) : Type := mkVariableRenderer {
  local_graph : LocalGraph World;
  run_async : bool;
  max_workers : Z;
  evaluate_vertex_attribute_from_edge : list Edge → World → outcome World unit;
  evaluate_non_rendered_values : World → World;
}.
Arguments local_graph {World} _.
Arguments run_async {World} _.
Arguments max_workers {World} _.
Arguments evaluate_vertex_attribute_from_edge {World} _ _ _.
Arguments evaluate_non_rendered_values {World} _ _.

(** The fallback pass of the base class. *)
Definition base_evaluate_non_rendered_values {World : Type} (w : World) : World := w.

(** What a rendering pass writes. *)
Record RenderState (World : Type) : Type := mkRenderState {
  world : World;
  done_edges_by_origin_vertex : gmap Z (list Edge);
  log : list LogRecord;
}.
Arguments mkRenderState {World} _ _ _.
Arguments world {World} _.
Arguments done_edges_by_origin_vertex {World} _.
Arguments log {World} _.

(** The local variables of [render_variables_from_local_graph]. *)
Record Locals : Type := mkLocals {
  end_vertices_indexes : list Z;
  edges_to_render : list Edge;
  loops : Z;
}.

Section renderer.
Context {World : Type}.

(** Helpers imported by the source file and not part of it. *)
Variable calculate_hash : string → string.
Variable run_function_multithreaded :
  (list (list Edge) → World → outcome World (list Edge)) →
  list (list Edge) → Z → Z → World → outcome World unit.

(** [list(set(l))]: the order in which a Python set is listed is not
    fixed by the language, so the listing is a parameter. *)
Variable list_of_set : list Edge → list Edge.

Section dispatch.
Variable evaluate : list Edge → World → outcome World unit.

Definition _edge_evaluation_task (edges : list (list Edge)) (w : World)
    : outcome World (list Edge) :=
  match edges with
  | [] => Raise IndexError w
  | inner_edges :: _ =>
      match evaluate inner_edges w with
      | Ret _ w' => Ret inner_edges w'
      | Raise e w' => Raise e w'
      end
  end.

(** [for edge_group in edges_groups: self._edge_evaluation_task([edge_group])] *)
Fixpoint for_each_group (edges_groups : list (list Edge)) (w : World)
    : outcome World unit :=
  match edges_groups with
  | [] => Ret tt w
  | edge_group :: rest =>
      match _edge_evaluation_task [edge_group] w with
      | Ret _ w' => for_each_group rest w'
      | Raise e w' => Raise e w'
      end
  end.

(** The [if self.run_async: ... else: ...] statement. *)
Definition dispatch (async : bool) (workers : Z)
    (edges_groups : list (list Edge)) (w : World) : outcome World unit :=
  if async
  then run_function_multithreaded _edge_evaluation_task edges_groups 1 workers w
  else for_each_group edges_groups w.
End dispatch.

(** The bookkeeping of the loop body reads the graph and no other field of
    [self]. *)
Section bookkeeping.
Variable graph : LocalGraph World.

(** [done.get(origin, [])] *)
Definition done_get (done : gmap Z (list Edge)) (v : Z) : list Edge :=
  default [] (done !! v).

(** [edge in l], with the equality of edges. *)
Definition edge_in (edge : Edge) (l : list Edge) : bool :=
  bool_decide (edge ∈ l).

(** Body of the first [for edge in edges_to_render] loop. *)
Definition record_done (done : gmap Z (list Edge)) (edge : Edge)
    : gmap Z (list Edge) :=
  let origin := origin edge in
  let done :=
    match done !! origin with
    | None => <[origin := []]> done
    | Some _ => done
    end in
  alter (λ l, l ++ [edge]) origin done.

(** Body of the second [for edge in edges_to_render] loop. *)
Definition extend_end_vertices (done : gmap Z (list Edge))
    (end_vertices : list Z) (edge : Edge) : list Z :=
  let origin_vertex_index := origin edge in
  let out := default [] (out_edges graph !! origin_vertex_index) in
  if forallb (λ e, edge_in e (done_get done origin_vertex_index)) out
  then end_vertices ++ [origin_vertex_index]
  else end_vertices.

(** The edges to render in the next iteration. *)
Definition next_edges_to_render (done : gmap Z (list Edge))
    (end_vertices : list Z) : list Edge :=
  list_of_set
    (filter (λ edge, edge_in edge (done_get done (origin edge)) = false)
       (get_in_edges graph end_vertices)).

(** The statements of the loop body after the dispatch, up to and including
    [loops += 1]. *)
Definition bookkeeping (loc : Locals) (done : gmap Z (list Edge))
    : Locals * gmap Z (list Edge) :=
  let done := fold_left record_done (edges_to_render loc) done in
  let end_vertices :=
    fold_left (extend_end_vertices done) (edges_to_render loc)
      (end_vertices_indexes loc) in
  ({| end_vertices_indexes := end_vertices;
      edges_to_render := next_edges_to_render done end_vertices;
      loops := loops loc + 1 |}, done).
End bookkeeping.

Variable self : VariableRenderer World.

Definition add_log (r : LogRecord) (st : RenderState World) : RenderState World :=
  mkRenderState (world st) (done_edges_by_origin_vertex st) (log st ++ [r]).

(** The loop body up to and including [loops += 1]. *)
Definition loop_body (loc : Locals) (st : RenderState World)
    : outcome (RenderState World) Locals :=
  let st := add_log (InfoEvaluating (length (edges_to_render loc))) st in
  let edges_groups :=
    group_edges_by_origin_and_label calculate_hash (edges_to_render loc) in
  match dispatch (evaluate_vertex_attribute_from_edge self)
          (run_async self) (max_workers self) edges_groups (world st) with
  | Raise e w => Raise e (mkRenderState w (done_edges_by_origin_vertex st) (log st))
  | Ret _ w =>
      let '(loc, done) :=
        bookkeeping (local_graph self) loc (done_edges_by_origin_vertex st) in
      Ret loc (mkRenderState w done (log st))
  end.

(** The [while] loop.  [fuel] bounds the number of turns of the model;
    [None] means that the fuel ran out while the loop was still running. *)
Fixpoint main_loop (fuel : nat) (loc : Locals) (st : RenderState World)
    : option (outcome (RenderState World) Locals) :=
  match edges_to_render loc with
  | [] => Some (Ret loc st)
  | _ :: _ =>
      match fuel with
      | O => None
      | S fuel =>
          match loop_body loc st with
          | Raise e st => Some (Raise e st)
          | Ret loc st =>
              if loops loc >=? MAX_NUMBER_OF_LOOPS
              then Some (Ret loc (add_log WarningReachedBound st))
              else main_loop fuel loc st
          end
      end
  end.

(** The local variables when the loop is entered. *)
Definition initial_locals : Locals :=
  let end_vertices_indexes :=
    get_vertices_with_degrees_conditions (local_graph self)
      (λ degree, degree =? 0) (λ degree, degree >? 0) in
  {| end_vertices_indexes := end_vertices_indexes;
     edges_to_render := get_in_edges (local_graph self) end_vertices_indexes;
     loops := 0 |}.

(** The statements after the loop. *)
Definition after_loop (st : RenderState World) : RenderState World :=
  let w := update_vertices_configs (local_graph self) (world st) in
  let st := add_log InfoDoneEvaluatingEdges
              (mkRenderState w (done_edges_by_origin_vertex st) (log st)) in
  let w := evaluate_non_rendered_values self (world st) in
  add_log InfoDoneNonRendered
    (mkRenderState w (done_edges_by_origin_vertex st) (log st)).

Definition render_variables_from_local_graph (fuel : nat)
    (st : RenderState World) : option (outcome (RenderState World) unit) :=
  match main_loop fuel initial_locals st with
  | None => None
  | Some (Raise e st) => Some (Raise e st)
  | Some (Ret _ st) => Some (Ret tt (after_loop st))
  end.
End renderer.

(** The state of a renderer after [__init__]: no edge is done. *)
Definition initial_state {World : Type} (w : World) : RenderState World :=
  mkRenderState w ∅ [].

(** The number of times the loop body was entered, read off the log: the
    body starts with [logging.info(f"evaluating ... edges")]. *)
Definition is_evaluating (r : LogRecord) : bool :=
  match r with
  | InfoEvaluating _ => true
  | _ => false
  end.

Definition body_runs (l : list LogRecord) : nat :=
  length (filter (λ r, is_evaluating r = true) l).

(** The state an outcome leaves behind. *)
Definition outcome_state {St A : Type} (o : outcome St A) : St :=
  match o with
  | Ret _ s => s
  | Raise _ s => s
  end.

(** What [list(set(l))] is known to give: the elements of [l], each once. *)
Definition set_listing (list_of_set : list Edge → list Edge) : Prop :=
  ∀ l, NoDup (list_of_set l) ∧ ∀ e, e ∈ list_of_set l ↔ e ∈ l.

(** ** Observing the calls of the strategy *)

(** The strategy together with the list of the groups it was called with, in
    the order of the calls; a call that raises is listed too. *)
Definition traced {World : Type}
    (evaluate : list Edge → World → outcome World unit)
    (edge_list : list Edge) (s : World * list (list Edge))
    : outcome (World * list (list Edge)) unit :=
  match evaluate edge_list s.1 with
  | Ret u w => Ret u (w, s.2 ++ [edge_list])
  | Raise e w => Raise e (w, s.2 ++ [edge_list])
  end.

(** ** The pooled dispatcher *)

Section pooled.
Context {World : Type}.
Variable func : list (list Edge) → World → outcome World (list Edge).

(** The tasks run one after the other, in input order; a failure is kept
    and the remaining tasks still run. *)
Fixpoint run_tasks (data : list (list Edge)) (failure : option PyExn)
    (w : World) : option PyExn * World :=
  match data with
  | [] => (failure, w)
  | data_group :: rest =>
      match func [data_group] w with
      | Ret _ w' => run_tasks rest failure w'
      | Raise e w' =>
          run_tasks rest (match failure with None => Some e | _ => failure end) w'
      end
  end.

(** Modelled from the spec: [run_function_multithreaded] is not part of the
    source file.  The Dispatcher submits every group to the pool, returns
    when all of them have finished, and surfaces a failure only after all
    groups have been attempted (collect-and-raise).  The renderer calls it
    with [max_group_size=1], so every task receives one group; the model
    runs the tasks in input order, which is one of the schedules of the
    pool. *)
Definition run_function_multithreaded_spec (data : list (list Edge))
    (max_group_size num_of_workers : Z) (w : World) : outcome World unit :=
  match run_tasks data None w with
  | (None, w') => Ret tt w'
  | (Some e, w') => Raise e w'
  end.
End pooled.

(** ** The graphs and the renderers of the scenarios *)

(** A strategy that returns without writing anything. *)
Definition evaluate_nothing {World : Type} (edge_list : list Edge) (w : World)
    : outcome World unit :=
  Ret tt w.

(** A strategy that raises for the groups of one origin vertex. *)
Definition evaluate_failing_at {World : Type} (v : Z) (edge_list : list Edge)
    (w : World) : outcome World unit :=
  match edge_list with
  | edge :: _ =>
      if decide (origin edge = v)
      then Raise (StrategyError "unresolvable") w
      else Ret tt w
  | [] => Ret tt w
  end.

(** The renderer of the base class with the default configuration
    (sequential dispatch, 50 workers) on a graph given by its edges, with a
    strategy that writes nothing. *)
Definition plain_renderer (number_of_vertices : nat) (edges : list Edge)
    : VariableRenderer unit :=
  mkVariableRenderer unit (graph_of_edges number_of_vertices edges id)
    false 50 evaluate_nothing base_evaluate_non_rendered_values.

(** The same renderer with a strategy that raises for the groups of the
    origin vertex [v]. *)
Definition failing_renderer (number_of_vertices : nat) (edges : list Edge)
    (v : Z) : VariableRenderer unit :=
  mkVariableRenderer unit (graph_of_edges number_of_vertices edges id)
    false 50 (evaluate_failing_at v) base_evaluate_non_rendered_values.

(** The cycle A→B, B→A, with A = 0 and B = 1. *)
Definition two_cycle_edges (la lb : string) : list Edge :=
  [mkEdge 0 1 la; mkEdge 1 0 lb].

(** The chain A→B→C→D, with A = 0, B = 1, C = 2 and D = 3. *)
Definition chain_edges (la lb lc : string) : list Edge :=
  [mkEdge 0 1 la; mkEdge 1 2 lb; mkEdge 2 3 lc].


(** ** Vocabulary of the further properties *)

(** Whether a string begins with one of the characters 0 to 9. *)
Definition begins_with_digit (s : string) : bool :=
  match s with
  | String a _ =>
      (48 <=? Ascii.nat_of_ascii a)%nat && (Ascii.nat_of_ascii a <=? 57)%nat
  | EmptyString => false
  end.

(** The elements of [l] that are not in [seen], each at its first
    occurrence in [l]. *)
Fixpoint first_occurrences (seen l : list string) : list string :=
  match l with
  | [] => []
  | x :: l =>
      if decide (x ∈ seen) then first_occurrences seen l
      else x :: first_occurrences (seen ++ [x]) l
  end.

(** The buckets of [group_edges_by_origin_and_label] after the edges [es]:
    every key once, one bucket for every key of [es], and the bucket of a
    key holds the edges of [es] with that key, in the order of [es]. *)
Definition buckets_of (calculate_hash : string → string) (es : list Edge)
    (d : list (string * list Edge)) : Prop :=
  NoDup d.*1
  ∧ (∀ e, e ∈ es → origin_and_label_hash calculate_hash e ∈ d.*1)
  ∧ ∀ k l, (k, l) ∈ d →
      l ≠ [] ∧ l = filter (λ e, origin_and_label_hash calculate_hash e = k) es.

(** The edges to render are listed once and none of them is done, and no
    edge is recorded twice for a vertex. *)
Definition no_edge_twice (loc : Locals) (done : gmap Z (list Edge)) : Prop :=
  NoDup (edges_to_render loc)
  ∧ (∀ e, e ∈ edges_to_render loc → e ∉ done_get done (origin e))
  ∧ ∀ v, NoDup (done_get done v).

(** The renderer of the base class whose strategy writes nothing and keeps
    the list of the groups it was called with. *)
Definition traced_renderer (number_of_vertices : nat) (edges : list Edge)
    : VariableRenderer (unit * list (list Edge)) :=
  mkVariableRenderer (unit * list (list Edge))
    (graph_of_edges number_of_vertices edges id)
    false 50 (traced evaluate_nothing) base_evaluate_non_rendered_values.

(** * Properties *)

(** ** Ordered dicts *)

Section ordered_dict_facts.
Context {K V : Type} `{EqDecision K}.
Implicit Types (d : list (K * V)) (k : K) (v : V).

Lemma get_None d k : PyDict.get d k = None ↔ k ∉ d.*1.
Proof.
  induction d as [|[k' v'] d IH]; simpl.
  - split; [intros _; apply not_elem_of_nil | done].
  - rewrite not_elem_of_cons. case_decide as Hk.
    + split; [done | by intros [? _]].
    + rewrite IH. split; [by auto | by intros [_ ?]].
Qed.

Lemma get_Some d k v :
  PyDict.get d k = Some v →
  ∃ d1 d2, d = d1 ++ (k, v) :: d2 ∧ k ∉ d1.*1.
Proof.
  induction d as [|[k' v'] d IH]; simpl; [done|].
  case_decide as Hk.
  - intros [= ->]. subst k'. exists [], d. split; [done | apply not_elem_of_nil].
  - intros (d1 & d2 & -> & Hd1)%IH.
    exists ((k', v') :: d1), d2. split; [done|].
    simpl. rewrite not_elem_of_cons. naive_solver.
Qed.

Lemma get_middle d1 d2 k v :
  k ∉ d1.*1 → PyDict.get (d1 ++ (k, v) :: d2) k = Some v.
Proof.
  induction d1 as [|[k' v'] d1 IH]; simpl; intros Hk.
  - by rewrite decide_True.
  - apply not_elem_of_cons in Hk as [? ?]. rewrite decide_False; auto.
Qed.

Lemma set_fresh d k v : k ∉ d.*1 → PyDict.set d k v = d ++ [(k, v)].
Proof.
  induction d as [|[k' v'] d IH]; simpl; [done|].
  intros [? ?]%not_elem_of_cons. rewrite decide_False; [|done].
  by rewrite IH.
Qed.

Lemma set_middle d1 d2 k v v' :
  k ∉ d1.*1 → PyDict.set (d1 ++ (k, v) :: d2) k v' = d1 ++ (k, v') :: d2.
Proof.
  induction d1 as [|[k' w] d1 IH]; simpl; intros Hk.
  - by rewrite decide_True.
  - apply not_elem_of_cons in Hk as [? ?]. rewrite decide_False; [|done].
    by rewrite IH.
Qed.
End ordered_dict_facts.

(** ** Grouping *)

Section grouping_facts.
Variable calculate_hash : string → string.
Local Abbreviation key := (origin_and_label_hash calculate_hash).
Local Abbreviation step := (group_step calculate_hash).
Local Abbreviation wg := (well_grouped calculate_hash).
Implicit Types (d : list (string * list Edge)) (e : Edge) (l : list Edge).

(** An edge whose key is new opens a bucket at the end. *)
Lemma group_step_fresh d e :
  key e ∉ d.*1 → step d e = d ++ [(key e, [e])].
Proof.
  intros Hk. unfold group_step, append_at.
  assert (PyDict.get d (key e) = None) as -> by by apply get_None.
  simpl. rewrite (set_fresh d) by done.
  rewrite (get_middle d []) by done.
  by rewrite (set_middle d []).
Qed.

(** An edge whose key has a non-empty bucket is added to that bucket. *)
Lemma group_step_present d1 d2 e e0 l :
  key e ∉ d1.*1 →
  step (d1 ++ (key e, e0 :: l) :: d2) e = d1 ++ (key e, (e0 :: l) ++ [e]) :: d2.
Proof.
  intros Hk. unfold group_step, append_at.
  rewrite get_middle by done. simpl.
  rewrite get_middle by done.
  by rewrite set_middle.
Qed.

Lemma well_grouped_nil : wg [].
Proof.
  split; [constructor|]. intros k l Hin. by apply elem_of_nil in Hin.
Qed.

Lemma well_grouped_snoc d k l :
  wg d → k ∉ d.*1 → l ≠ [] → (∀ e, e ∈ l → key e = k) → wg (d ++ [(k, l)]).
Proof.
  intros [Hnd Hb] Hk Hl Hkeys. split.
  - rewrite fmap_app. simpl. apply NoDup_app. split_and!; [done| |apply NoDup_singleton].
    intros x Hx ->%list_elem_of_singleton. done.
  - intros k' l' [Hin | Hin%list_elem_of_singleton]%elem_of_app.
    + by apply Hb.
    + injection Hin as -> ->. done.
Qed.

Lemma well_grouped_inv_snoc d k l :
  wg (d ++ [(k, l)]) →
  wg d ∧ (k ∉ d.*1) ∧ l ≠ [] ∧ ∀ e, e ∈ l → key e = k.
Proof.
  intros [Hnd Hb]. rewrite fmap_app in Hnd. simpl in Hnd.
  apply NoDup_app in Hnd as (Hnd & Hdisj & _).
  assert ((k, l) ∈ d ++ [(k, l)]) as Hin by (apply elem_of_app; right; by left).
  destruct (Hb _ _ Hin) as [Hl Hkeys].
  split_and!; [split; [done|] | | done | done].
  - intros k' l' Hin'. apply Hb. apply elem_of_app. by left.
  - intros Hk. apply (Hdisj _ Hk). by left.
Qed.

Lemma well_grouped_step d e : wg d → wg (step d e).
Proof.
  intros Hwg. destruct (PyDict.get d (key e)) as [l|] eqn:Hget.
  - apply get_Some in Hget as (d1 & d2 & -> & Hk).
    destruct Hwg as [Hnd Hb].
    assert ((key e, l) ∈ d1 ++ (key e, l) :: d2) as Hin
      by (apply elem_of_app; right; by left).
    destruct (Hb _ _ Hin) as [Hl Hkeys].
    destruct l as [|e0 l]; [done|].
    rewrite group_step_present by done. split.
    + by rewrite fmap_app in Hnd |- *.
    + intros k' l' [Hin' | [Hin' | Hin']%elem_of_cons]%elem_of_app.
      * apply Hb. apply elem_of_app. by left.
      * injection Hin' as -> ->. split; [done|].
        intros e' He'.
        assert (e' ∈ e0 :: l ∨ e' = e) as [?| ->]; auto.
        revert He'. rewrite !elem_of_cons, elem_of_app, list_elem_of_singleton.
        tauto.
      * apply Hb. apply elem_of_app. right. by right.
  - apply get_None in Hget. rewrite group_step_fresh by done.
    apply well_grouped_snoc; [done | done | done |].
    by intros e' ->%list_elem_of_singleton.
Qed.

Lemma well_grouped_fold l d : wg d → wg (fold_left step l d).
Proof.
  revert d. induction l as [|e l IH]; simpl; [done|].
  intros d Hd. apply IH. by apply well_grouped_step.
Qed.

(** Edges of the key of the last bucket go to the last bucket, in order. *)
Lemma group_fold_last d k e0 l0 l :
  k ∉ d.*1 → (∀ e, e ∈ l → key e = k) →
  fold_left step l (d ++ [(k, e0 :: l0)]) = d ++ [(k, (e0 :: l0) ++ l)].
Proof.
  intros Hk. revert l0. induction l as [|e l IH]; intros l0 Hkeys; simpl.
  - by rewrite app_nil_r.
  - assert (key e = k) as <- by (apply Hkeys; by left).
    rewrite group_step_present by done. simpl.
    rewrite IH; [simpl; by rewrite <-app_assoc|].
    intros e' He'. apply Hkeys. by right.
Qed.

(** Grouping the buckets of a grouping, one after the other, rebuilds it. *)
Lemma regroup_well_grouped d :
  wg d → fold_left step (concat (PyDict.values d)) [] = d.
Proof.
  unfold PyDict.values.
  induction d as [|[k l] d IH] using rev_ind; [done|].
  intros (Hd & Hk & Hl & Hkeys)%well_grouped_inv_snoc.
  rewrite fmap_app, concat_app, fold_left_app, IH by done. simpl.
  rewrite app_nil_r. destruct l as [|e0 l]; [done|]. simpl.
  assert (key e0 = k) as Hk0 by (apply Hkeys; by left).
  rewrite group_step_fresh by by rewrite Hk0.
  rewrite Hk0. apply group_fold_last; [done|].
  intros e He. apply Hkeys. by right.
Qed.

(** The edges of one group have one value of
    [calculate_hash(f"{edge.origin}{edge.label}")]. *)
Lemma group_members_share_hash edges g e1 e2 :
  g ∈ group_edges_by_origin_and_label calculate_hash edges →
  e1 ∈ g → e2 ∈ g → key e1 = key e2.
Proof.
  unfold group_edges_by_origin_and_label, PyDict.values.
  intros ([k l] & -> & Hin)%list_elem_of_fmap He1 He2. simpl in *.
  destruct (well_grouped_fold edges [] well_grouped_nil) as [_ Hb].
  destruct (Hb _ _ Hin) as [_ Hkeys].
  by rewrite (Hkeys _ He1), (Hkeys _ He2).
Qed.

(** C1, on the code: the key of a bucket is the hash of the origin and the
    label written one after the other, so the edge with origin 1 and label
    [2x] and the edge with origin 12 and label [x] have one key, whatever
    [calculate_hash] is, and the function returns them as one group. *)
Theorem group_edges_merges_origin_1_label_2x_with_origin_12_label_x
    (d1 d2 : Z) :
  group_edges_by_origin_and_label calculate_hash
    [mkEdge 1 d1 "2x"; mkEdge 12 d2 "x"]
  = [[mkEdge 1 d1 "2x"; mkEdge 12 d2 "x"]].
Proof.
  unfold group_edges_by_origin_and_label. simpl fold_left.
  rewrite (group_step_fresh []) by apply not_elem_of_nil.
  change (origin_and_label_hash calculate_hash (mkEdge 1 d1 "2x"))
    with (origin_and_label_hash calculate_hash (mkEdge 12 d2 "x")).
  by rewrite (group_step_present [] []) by apply not_elem_of_nil.
Qed.

(** C8: grouping is idempotent.  The groups of the flattened result are the
    groups of the input, with the same members in the same order and the
    groups themselves in the same order. *)
Theorem group_edges_idempotent (edges : list Edge) :
  group_edges_by_origin_and_label calculate_hash
    (concat (group_edges_by_origin_and_label calculate_hash edges))
  = group_edges_by_origin_and_label calculate_hash edges.
Proof.
  unfold group_edges_by_origin_and_label at 1 3.
  unfold group_edges_by_origin_and_label.
  rewrite regroup_well_grouped; [done|].
  apply well_grouped_fold, well_grouped_nil.
Qed.
End grouping_facts.

(** ** The value cache *)

Section replace_cache_facts.
Context {Value : Type}.
Implicit Types (h : ReplaceCache.store (Value:=Value)).

Lemma list_mul_singleton (a : ReplaceCache.addr) (n : nat) :
  ReplaceCache.list_mul [a] n = replicate n a.
Proof. unfold ReplaceCache.list_mul. induction n as [|n IH]; simpl; [done | by rewrite IH]. Qed.

Lemma init_replace_cache_slot_empty (n v : nat) h :
  (v < n)%nat →
  let '(replace_cache, h0) := ReplaceCache.init_replace_cache n h in
  ReplaceCache.slot replace_cache v h0 = Some ∅.
Proof.
  intros Hv. unfold ReplaceCache.init_replace_cache, ReplaceCache.new_dict, ReplaceCache.slot.
  rewrite list_mul_singleton, lookup_replicate_2 by done. simpl.
  by apply list_lookup_middle.
Qed.

Lemma init_replace_cache_slots_alias (n u v : nat) (k : string) (x : Value) h :
  (u < n)%nat → (v < n)%nat →
  let '(replace_cache, h0) := ReplaceCache.init_replace_cache n h in
  ∃ h1, ReplaceCache.slot_setitem replace_cache u k x h0 = Some h1
        ∧ ReplaceCache.slot replace_cache v h1 = Some {[k := x]}.
Proof.
  intros Hu Hv. unfold ReplaceCache.init_replace_cache, ReplaceCache.new_dict,
    ReplaceCache.slot_setitem, ReplaceCache.slot.
  rewrite list_mul_singleton, !lookup_replicate_2 by done. simpl.
  rewrite (list_lookup_middle h [] ∅ (length h)) by done. simpl.
  eexists. split; [done|].
  rewrite insert_empty. apply list_lookup_insert_eq.
  rewrite length_app. simpl. lia.
Qed.

(** C2, on the code: [[{}] * n] repeats one reference, so the slots of the
    cache are one dict.  For a graph of two vertices both slots are empty
    after [__init__], and [replace_cache[0]["key"] = x] is read back in
    [replace_cache[1]]: the slot of vertex 1 does not stay unchanged. *)
Theorem replace_cache_write_through_slot_0_is_read_in_slot_1 (x : Value) :
  let '(replace_cache, h0) := ReplaceCache.init_replace_cache 2 [] in
  ReplaceCache.slot replace_cache 0 h0 = Some ∅
  ∧ ReplaceCache.slot replace_cache 1 h0 = Some ∅
  ∧ ∃ h1, ReplaceCache.slot_setitem replace_cache 0 "key" x h0 = Some h1
          ∧ ReplaceCache.slot replace_cache 1 h1 = Some {["key" := x]}.
Proof.
  split_and!.
  - apply (init_replace_cache_slot_empty 2 0 []). lia.
  - apply (init_replace_cache_slot_empty 2 1 []). lia.
  - apply (init_replace_cache_slots_alias 2 0 1 "key" x []); lia.
Qed.
End replace_cache_facts.

(** ** Dispatch *)

Section dispatch_facts.
Context {World : Type}.
Variable evaluate : list Edge → World → outcome World unit.
Implicit Types (w : World) (tr : list (list Edge)).

Lemma for_each_group_traced_ok groups w w1 tr :
  for_each_group evaluate groups w = Ret tt w1 →
  for_each_group (traced evaluate) groups (w, tr) = Ret tt (w1, tr ++ groups).
Proof.
  revert w tr. induction groups as [|g groups IH]; intros w tr; simpl.
  - intros [= ->]. by rewrite app_nil_r.
  - unfold traced at 1. simpl. destruct (evaluate g w) as [[] w'|e w']; [|done].
    intros Hrest. rewrite (IH _ (tr ++ [g]) Hrest). by rewrite <-app_assoc.
Qed.

Lemma for_each_group_traced_raise groups post g w w1 w2 e tr :
  for_each_group evaluate groups w = Ret tt w1 →
  evaluate g w1 = Raise e w2 →
  for_each_group (traced evaluate) (groups ++ g :: post) (w, tr)
  = Raise e (w2, tr ++ groups ++ [g]).
Proof.
  revert w tr. induction groups as [|g' groups IH]; intros w tr; simpl.
  - intros [= ->] Hg. unfold traced. simpl. by rewrite Hg.
  - unfold traced at 1. simpl. destruct (evaluate g' w) as [[] w'|e' w']; [|done].
    intros Hrest Hg. rewrite (IH _ (tr ++ [g']) Hrest Hg). by rewrite <-app_assoc.
Qed.

Lemma run_tasks_traced_all groups failure w tr :
  ∃ failure' w',
    run_tasks (_edge_evaluation_task (traced evaluate)) groups failure (w, tr)
    = (failure', (w', tr ++ groups))
    ∧ (∀ e, failure = Some e → failure' = Some e).
Proof.
  revert failure w tr. induction groups as [|g groups IH]; intros failure w tr; simpl.
  - exists failure, w. by rewrite app_nil_r.
  - unfold traced at 1. simpl. destruct (evaluate g w) as [[] w'|e w'].
    + destruct (IH failure w' (tr ++ [g])) as (f' & w'' & -> & Hf).
      exists f', w''. by rewrite <-app_assoc.
    + destruct (IH (match failure with None => Some e | _ => failure end) w' (tr ++ [g]))
        as (f' & w'' & -> & Hf).
      exists f', w''. rewrite <-app_assoc. split; [done|].
      intros e0 ->. by apply Hf.
Qed.

Lemma run_tasks_traced_raise groups post g w w1 w2 e tr :
  for_each_group evaluate groups w = Ret tt w1 →
  evaluate g w1 = Raise e w2 →
  ∃ w3, run_tasks (_edge_evaluation_task (traced evaluate)) (groups ++ g :: post) None (w, tr)
        = (Some e, (w3, tr ++ groups ++ g :: post)).
Proof.
  revert w tr. induction groups as [|g' groups IH]; intros w tr; simpl.
  - intros [= ->] Hg. unfold traced at 1. simpl. rewrite Hg.
    destruct (run_tasks_traced_all post (Some e) w2 (tr ++ [g])) as (f' & w3 & -> & Hf).
    exists w3. rewrite (Hf e) by done. by rewrite <-app_assoc.
  - unfold traced at 1. simpl. destruct (evaluate g' w) as [[] w'|e' w']; [|done].
    intros Hrest Hg. destruct (IH _ (tr ++ [g']) Hrest Hg) as (w3 & ->).
    exists w3. by rewrite <-app_assoc.
Qed.
End dispatch_facts.

Lemma evaluate_nothing_dispatch {World : Type}
    (run_function_multithreaded :
       (list (list Edge) → World → outcome World (list Edge)) →
       list (list Edge) → Z → Z → World → outcome World unit)
    (workers : Z) (groups : list (list Edge)) (w : World) :
  dispatch run_function_multithreaded evaluate_nothing false workers groups w
  = Ret tt w.
Proof. induction groups as [|g groups IH]; [done | exact IH]. Qed.

(** C4, as amended: when the strategy returns for the groups [before] and
    raises for the group [failing], the sequential dispatch raises that
    exception at once: the strategy has been called with [before] and
    [failing] and with no group of [after].  The pooled dispatch, as the
    specification describes it, raises the same exception after the strategy
    has been called with every group. *)
Theorem sequential_dispatch_fails_fast_pooled_dispatch_collects {World : Type}
    (run_function_multithreaded :
       (list (list Edge) → World * list (list Edge)
          → outcome (World * list (list Edge)) (list Edge)) →
       list (list Edge) → Z → Z → World * list (list Edge)
       → outcome (World * list (list Edge)) unit)
    (evaluate : list Edge → World → outcome World unit) (workers : Z)
    (before after : list (list Edge)) (failing : list Edge)
    (w w1 w2 : World) (e : PyExn) :
  for_each_group evaluate before w = Ret tt w1 →
  evaluate failing w1 = Raise e w2 →
  dispatch run_function_multithreaded (traced evaluate) false workers
    (before ++ failing :: after) (w, [])
  = Raise e (w2, before ++ [failing])
  ∧ ∃ w3,
      dispatch run_function_multithreaded_spec (traced evaluate) true workers
        (before ++ failing :: after) (w, [])
      = Raise e (w3, before ++ failing :: after).
Proof.
  intros Hbefore Hfailing. split.
  - apply (for_each_group_traced_raise evaluate _ _ _ _ _ _ _ [] Hbefore Hfailing).
  - unfold dispatch, run_function_multithreaded_spec.
    destruct (run_tasks_traced_raise evaluate _ after _ _ _ _ _ [] Hbefore Hfailing)
      as (w3 & ->).
    by exists w3.
Qed.

(** C4, as amended, at three groups of which the second fails. *)
Lemma sequential_dispatch_fails_fast_pooled_dispatch_collects_witness :
  for_each_group (evaluate_failing_at 1) [[mkEdge 0 3 "a"]] tt = Ret tt tt
  ∧ evaluate_failing_at 1 [mkEdge 1 3 "b"] tt
    = Raise (StrategyError "unresolvable") tt
  ∧ dispatch run_function_multithreaded_spec (traced (evaluate_failing_at 1))
      false 50 ([[mkEdge 0 3 "a"]] ++ [mkEdge 1 3 "b"] :: [[mkEdge 2 3 "c"]])
      (tt, [])
    = Raise (StrategyError "unresolvable")
        (tt, [[mkEdge 0 3 "a"]] ++ [[mkEdge 1 3 "b"]])
  ∧ ∃ w3,
      dispatch run_function_multithreaded_spec (traced (evaluate_failing_at 1))
        true 50 ([[mkEdge 0 3 "a"]] ++ [mkEdge 1 3 "b"] :: [[mkEdge 2 3 "c"]])
        (tt, [])
      = Raise (StrategyError "unresolvable")
          (w3, [[mkEdge 0 3 "a"]] ++ [mkEdge 1 3 "b"] :: [[mkEdge 2 3 "c"]]).
Proof.
  split; [reflexivity|]. split; [reflexivity|].
  apply (sequential_dispatch_fails_fast_pooled_dispatch_collects
           run_function_multithreaded_spec (evaluate_failing_at 1) 50
           [[mkEdge 0 3 "a"]] [[mkEdge 2 3 "c"]] [mkEdge 1 3 "b"] tt tt tt
           (StrategyError "unresolvable")); reflexivity.
Defined.

(** C4, as stated, fails on the sequential path: the strategy raises for the
    first of two groups, the dispatch raises, and the strategy was never
    called with the second group. *)
Lemma sequential_dispatch_skips_the_groups_after_a_failure :
  dispatch run_function_multithreaded_spec (traced (evaluate_failing_at 1))
    false 50 [[mkEdge 1 3 "b"]; [mkEdge 2 3 "c"]] (tt, [])
  = Raise (StrategyError "unresolvable") (tt, [[mkEdge 1 3 "b"]])
  ∧ [mkEdge 2 3 "c"] ∉ [[mkEdge 1 3 "b"]].
Proof.
  split; [reflexivity|].
  apply not_elem_of_cons. split; [discriminate | apply not_elem_of_nil].
Qed.

(** ** The bookkeeping of the loop body *)

Section bookkeeping_facts.
Context {World : Type}.
Variable list_of_set : list Edge → list Edge.
Variable graph : LocalGraph World.
Implicit Types (done : gmap Z (list Edge)) (e : Edge) (v : Z).

Lemma edge_in_true e (l : list Edge) : edge_in e l = true ↔ e ∈ l.
Proof. unfold edge_in. apply bool_decide_eq_true. Qed.

Lemma edge_in_singleton e : edge_in e [e] = true.
Proof. apply edge_in_true. by left. Qed.

Lemma done_get_record_done done e v :
  done_get (record_done done e) v
  = if decide (v = origin e) then done_get done v ++ [e] else done_get done v.
Proof.
  unfold record_done, done_get. case_decide as Hv.
  - subst v. destruct (done !! origin e) as [l|] eqn:Hl.
    + by rewrite lookup_alter_eq, Hl.
    + by rewrite lookup_alter_eq, lookup_insert_eq.
  - rewrite lookup_alter_ne by done.
    destruct (done !! origin e); [done|]. by rewrite lookup_insert_ne.
Qed.

Lemma record_done_mono done e e' v :
  e' ∈ done_get done v → e' ∈ done_get (record_done done e) v.
Proof.
  rewrite done_get_record_done. case_decide; [|done].
  intros ?. apply elem_of_app. by left.
Qed.

Lemma fold_record_done_mono (l : list Edge) done e' v :
  e' ∈ done_get done v → e' ∈ done_get (fold_left record_done l done) v.
Proof.
  revert done. induction l as [|e l IH]; simpl; [done|].
  intros done Hin. by apply IH, record_done_mono.
Qed.

Lemma fold_record_done_records (l : list Edge) done e :
  e ∈ l → e ∈ done_get (fold_left record_done l done) (origin e).
Proof.
  revert done. induction l as [|e0 l IH]; simpl; intros done Hin.
  - by apply elem_of_nil in Hin.
  - apply elem_of_cons in Hin as [->|Hin]; [|by apply IH].
    apply fold_record_done_mono. rewrite done_get_record_done, decide_True by done.
    apply elem_of_app. right. by left.
Qed.

Lemma extend_end_vertices_mono done (ends : list Z) e v :
  v ∈ ends → v ∈ extend_end_vertices graph done ends e.
Proof.
  unfold extend_end_vertices. destruct (forallb _ _); [|done].
  intros ?. apply elem_of_app. by left.
Qed.

Lemma fold_extend_end_vertices_mono done (l : list Edge) (ends : list Z) v :
  v ∈ ends → v ∈ fold_left (extend_end_vertices graph done) l ends.
Proof.
  revert ends. induction l as [|e l IH]; simpl; [done|].
  intros ends Hin. by apply IH, extend_end_vertices_mono.
Qed.

Lemma fold_extend_end_vertices_adds done (l : list Edge) (ends : list Z) e :
  e ∈ l →
  (∀ e', e' ∈ default [] (out_edges graph !! origin e) →
         e' ∈ done_get done (origin e)) →
  origin e ∈ fold_left (extend_end_vertices graph done) l ends.
Proof.
  intros Hin Hall. revert ends. induction l as [|e0 l IH]; simpl; intros ends.
  - by apply elem_of_nil in Hin.
  - apply elem_of_cons in Hin as [<-|Hin]; [|by apply IH].
    apply fold_extend_end_vertices_mono. unfold extend_end_vertices.
    assert (forallb (λ e', edge_in e' (done_get done (origin e)))
              (default [] (out_edges graph !! origin e)) = true) as ->.
    { apply forallb_forall. intros e' He'. apply edge_in_true, Hall.
      by apply list_elem_of_In. }
    apply elem_of_app. right. by left.
Qed.
End bookkeeping_facts.

Lemma set_listing_singleton (list_of_set : list Edge → list Edge) (e : Edge) :
  set_listing list_of_set → list_of_set [e] = [e].
Proof.
  intros Hset. destruct (Hset [e]) as [Hnd Hin].
  destruct (list_of_set [e]) as [|x l].
  - exfalso. eapply not_elem_of_nil. apply Hin. by left.
  - assert (x = e) as -> by (apply list_elem_of_singleton, Hin; by left).
    destruct l as [|y l]; [done|].
    assert (y = e) as -> by (apply list_elem_of_singleton, Hin; right; by left).
    apply NoDup_cons in Hnd as [Hne _]. exfalso. apply Hne. by left.
Qed.

Lemma set_listing_nil (list_of_set : list Edge → list Edge) :
  set_listing list_of_set → list_of_set [] = [].
Proof.
  intros Hset. destruct (Hset []) as [_ Hin].
  destruct (list_of_set []) as [|x l]; [done|].
  exfalso. eapply not_elem_of_nil. apply Hin. by left.
Qed.

Lemma set_listing_remove_dups : set_listing remove_dups.
Proof. intros l. split; [apply NoDup_remove_dups | apply elem_of_remove_dups]. Qed.

(** ** The main loop *)

Lemma body_runs_app l1 l2 : body_runs (l1 ++ l2) = (body_runs l1 + body_runs l2)%nat.
Proof. unfold body_runs. by rewrite filter_app, length_app. Qed.

Section loop_facts.
Context {World : Type}.
Variable calculate_hash : string → string.
Variable run_function_multithreaded :
  (list (list Edge) → World → outcome World (list Edge)) →
  list (list Edge) → Z → Z → World → outcome World unit.
Variable list_of_set : list Edge → list Edge.
Variable self : VariableRenderer World.

Local Abbreviation body :=
  (loop_body calculate_hash run_function_multithreaded list_of_set self).
Local Abbreviation loop :=
  (main_loop calculate_hash run_function_multithreaded list_of_set self).
Local Abbreviation render :=
  (render_variables_from_local_graph calculate_hash run_function_multithreaded
     list_of_set self).
Local Abbreviation books := (bookkeeping list_of_set (local_graph self)).
Local Abbreviation run_dispatch :=
  (dispatch run_function_multithreaded (evaluate_vertex_attribute_from_edge self)
     (run_async self) (max_workers self)).
Implicit Types (loc : Locals) (st : RenderState World).

(** The loop body is the dispatch followed by the bookkeeping. *)
Lemma loop_body_Ret loc st loc' st' :
  body loc st = Ret loc' st' →
  ∃ w',
    run_dispatch (group_edges_by_origin_and_label calculate_hash (edges_to_render loc))
      (world st) = Ret tt w'
    ∧ (loc', done_edges_by_origin_vertex st') = books loc (done_edges_by_origin_vertex st)
    ∧ world st' = w'
    ∧ log st' = log st ++ [InfoEvaluating (length (edges_to_render loc))].
Proof.
  unfold loop_body, add_log. cbn [world log done_edges_by_origin_vertex].
  destruct (dispatch _ _ _ _ _ _) as [[] w'|e w']; [|done].
  destruct (books loc _) as [loc1 done1] eqn:Hb.
  intros [= <- <-]. by exists w'.
Qed.

Lemma loop_body_returns loc st :
  (∀ groups w, ∃ w', run_dispatch groups w = Ret tt w') →
  ∃ w',
    body loc st
    = Ret (bookkeeping list_of_set (local_graph self) loc (done_edges_by_origin_vertex st)).1
        (mkRenderState w'
           (bookkeeping list_of_set (local_graph self) loc (done_edges_by_origin_vertex st)).2
           (log st ++ [InfoEvaluating (length (edges_to_render loc))])).
Proof.
  intros Hok. unfold loop_body, add_log. cbn [world log done_edges_by_origin_vertex].
  destruct (Hok (group_edges_by_origin_and_label calculate_hash (edges_to_render loc))
              (world st)) as [w' ->].
  exists w'. by destruct (bookkeeping _ _ _ _).
Qed.

Lemma loop_body_log loc st :
  log (outcome_state (body loc st))
  = log st ++ [InfoEvaluating (length (edges_to_render loc))].
Proof.
  unfold loop_body, add_log. cbn [world log done_edges_by_origin_vertex].
  destruct (dispatch _ _ _ _ _ _) as [[] w'|e w']; [|done].
  by destruct (books loc _).
Qed.

(** When the dispatch raises, the exception leaves the loop body before the
    bookkeeping. *)
Lemma loop_body_Raise loc st exn st' :
  body loc st = Raise exn st' →
  done_edges_by_origin_vertex st' = done_edges_by_origin_vertex st.
Proof.
  unfold loop_body, add_log. cbn [world log done_edges_by_origin_vertex].
  destruct (dispatch _ _ _ _ _ _) as [[] w'|e w'].
  - by destruct (books loc _).
  - by intros [= _ <-].
Qed.

Lemma loop_body_loops loc st loc' st' :
  body loc st = Ret loc' st' → loops loc' = loops loc + 1.
Proof.
  intros (w' & _ & Hb & _)%loop_body_Ret. unfold bookkeeping in Hb.
  by injection Hb as -> _.
Qed.

(** With nothing to render the loop returns at once. *)
Lemma main_loop_nothing_to_render fuel loc st :
  edges_to_render loc = [] → loop fuel loc st = Some (Ret loc st).
Proof. intros Hp. destruct fuel; simpl; by rewrite Hp. Qed.

(** One turn of the loop when the dispatch returns and the counter stays
    below the bound. *)
Lemma main_loop_turn fuel loc st loc1 done1 :
  (∀ groups w, ∃ w', run_dispatch groups w = Ret tt w') →
  edges_to_render loc ≠ [] →
  bookkeeping list_of_set (local_graph self) loc (done_edges_by_origin_vertex st)
  = (loc1, done1) →
  loops loc1 < MAX_NUMBER_OF_LOOPS →
  ∃ w1,
    loop (S fuel) loc st
    = loop fuel loc1
        (mkRenderState w1 done1
           (log st ++ [InfoEvaluating (length (edges_to_render loc))])).
Proof.
  intros Hok Hpending Hbooks Hlt.
  destruct (loop_body_returns loc st Hok) as [w1 Hbody]. exists w1.
  rewrite Hbooks in Hbody. cbn [fst snd] in Hbody.
  cbn [main_loop]. destruct (edges_to_render loc) as [|e rest] eqn:Hp; [done|].
  rewrite <-Hp, Hbody.
  destruct (Z.geb_spec (loops loc1) MAX_NUMBER_OF_LOOPS); [lia | by rewrite Hp].
Qed.

(** More fuel does not change a result. *)
Lemma main_loop_fuel_mono fuel fuel' loc st out :
  (fuel ≤ fuel')%nat → loop fuel loc st = Some out → loop fuel' loc st = Some out.
Proof.
  revert fuel' loc st. induction fuel as [|fuel IH]; intros fuel' loc st Hle.
  - destruct fuel'; simpl; destruct (edges_to_render loc) as [|e0 rest]; done.
  - destruct fuel' as [|fuel']; [lia|]. simpl.
    destruct (edges_to_render loc) as [|e0 rest]; [done|].
    destruct (body loc st) as [loc1 st1|exn st1]; [|done].
    destruct (loops loc1 >=? MAX_NUMBER_OF_LOOPS); [done|].
    apply IH. lia.
Qed.

(** The counter stops the loop: with the fuel of the turns that the counter
    leaves, the loop returns, and the body has run at most that many times. *)
Lemma main_loop_terminates fuel loc st :
  loops loc < MAX_NUMBER_OF_LOOPS →
  (Z.to_nat (MAX_NUMBER_OF_LOOPS - loops loc) ≤ fuel)%nat →
  ∃ out, loop fuel loc st = Some out
    ∧ (body_runs (log (outcome_state out))
       ≤ body_runs (log st) + Z.to_nat (MAX_NUMBER_OF_LOOPS - loops loc))%nat.
Proof.
  revert loc st. induction fuel as [|fuel IH]; intros loc st Hlt Hfuel; [lia|].
  simpl. destruct (edges_to_render loc) as [|e0 rest] eqn:Hpending.
  { eexists. split; [done|]. simpl. lia. }
  pose proof (loop_body_log loc st) as Hlog.
  destruct (body loc st) as [loc1 st1|exn st1] eqn:Hbody; simpl in Hlog.
  - apply loop_body_loops in Hbody.
    destruct (Z.geb_spec (loops loc1) MAX_NUMBER_OF_LOOPS) as [Hge|Hlt1].
    + eexists. split; [done|]. simpl. rewrite Hlog, !body_runs_app.
      change (body_runs [InfoEvaluating _]) with 1%nat.
      change (body_runs [WarningReachedBound]) with 0%nat. lia.
    + destruct (IH loc1 st1 Hlt1) as (out & Hout & Hruns); [lia|].
      exists out. split; [done|]. rewrite Hlog, body_runs_app in Hruns.
      change (body_runs [InfoEvaluating _]) with 1%nat in Hruns. lia.
  - eexists. split; [done|]. simpl. rewrite Hlog, body_runs_app.
    change (body_runs [InfoEvaluating _]) with 1%nat. lia.
Qed.



(** A loop that ends below the bound has ended with nothing left to render. *)
Lemma main_loop_below_bound fuel loc st loc' st' :
  loop fuel loc st = Some (Ret loc' st') →
  loops loc' < MAX_NUMBER_OF_LOOPS →
  edges_to_render loc' = [].
Proof.
  revert loc st. induction fuel as [|fuel IH]; intros loc st; simpl.
  - destruct (edges_to_render loc) as [|e0 rest] eqn:Hp; [|done]. by intros [= <- <-].
  - destruct (edges_to_render loc) as [|e0 rest] eqn:Hp; [by intros [= <- <-]|].
    destruct (body loc st) as [loc1 st1|exn st1] eqn:Hbody; [|done].
    destruct (Z.geb_spec (loops loc1) MAX_NUMBER_OF_LOOPS) as [Hge|Hlt1].
    + intros [= <- <-]. lia.
    + apply IH.
Qed.



Lemma after_loop_log st :
  log (after_loop self st)
  = log st ++ [InfoDoneEvaluatingEdges; InfoDoneNonRendered].
Proof. unfold after_loop, add_log. simpl. by rewrite <-app_assoc. Qed.

Lemma after_loop_done st :
  done_edges_by_origin_vertex (after_loop self st) = done_edges_by_origin_vertex st.
Proof. done. Qed.

(** C5: the loop body runs at most 50 times.  With fuel for 50 turns or
    more the model of [render_variables_from_local_graph] returns, for every
    graph, strategy and state, and the result does not depend on the extra
    fuel: the counter, not the fuel, stops the loop.  The log holds at most
    50 more [evaluating ... edges] records, one for each run of the body. *)
Theorem render_runs_loop_body_at_most_50_times (extra : nat) st :
  ∃ out,
    render (Z.to_nat MAX_NUMBER_OF_LOOPS + extra) st = Some out
    ∧ render (Z.to_nat MAX_NUMBER_OF_LOOPS) st = Some out
    ∧ (body_runs (log (outcome_state out)) ≤ body_runs (log st) + 50)%nat.
Proof.
  destruct (main_loop_terminates (Z.to_nat MAX_NUMBER_OF_LOOPS) (initial_locals self) st)
    as (out & Hout & Hruns); [done | done |].
  assert (loop (Z.to_nat MAX_NUMBER_OF_LOOPS + extra) (initial_locals self) st = Some out)
    as Hout' by (apply (main_loop_fuel_mono (Z.to_nat MAX_NUMBER_OF_LOOPS)); [lia | done]).
  unfold render_variables_from_local_graph. rewrite Hout, Hout'.
  change (Z.to_nat (MAX_NUMBER_OF_LOOPS - loops (initial_locals self))) with 50%nat in Hruns.
  destruct out as [loc' st'|e st']; eexists; split_and!; try done.
  cbn [outcome_state] in *. rewrite after_loop_log, body_runs_app.
  change (body_runs [InfoDoneEvaluatingEdges; InfoDoneNonRendered]) with 0%nat. lia.
Qed.


(** C9, as amended: in an iteration whose dispatch has returned, the
    bookkeeping is a function of the local variables, of the done edges and
    of the graph: it reads neither the world nor what the strategy did.
    Every edge that was to be rendered is recorded as done for its origin
    vertex, and an origin vertex all of whose outgoing edges are recorded is
    added to the end vertices, whether or not the strategy has written a
    value. *)
Theorem pending_edges_are_recorded_done_whatever_the_strategy_did
    loc st loc' st' :
  body loc st = Ret loc' st' →
  (loc', done_edges_by_origin_vertex st') = books loc (done_edges_by_origin_vertex st)
  ∧ (∀ e, e ∈ edges_to_render loc →
          e ∈ done_get (done_edges_by_origin_vertex st') (origin e))
  ∧ (∀ e, e ∈ edges_to_render loc →
          (∀ e', e' ∈ default [] (out_edges (local_graph self) !! origin e) →
                 e' ∈ done_get (done_edges_by_origin_vertex st') (origin e)) →
          origin e ∈ end_vertices_indexes loc').
Proof.
  intros (w' & _ & Hb & _)%loop_body_Ret. split; [done|].
  unfold bookkeeping in Hb. injection Hb as -> ->. split.
  - intros e He. by apply fold_record_done_records.
  - intros e He Hall. simpl. by apply fold_extend_end_vertices_adds.
Qed.
End loop_facts.


(** C9, as amended, at the graph 0→1 with a strategy that writes nothing:
    the edge is recorded as done and vertex 0 joins the end vertices. *)
Lemma pending_edges_are_recorded_done_whatever_the_strategy_did_witness :
  let self := plain_renderer 2 [mkEdge 0 1 "a"] in
  let loc := mkLocals [1] [mkEdge 0 1 "a"] 0 in
  let loc' := mkLocals [1; 0] [] 1 in
  let st' := mkRenderState tt {[0 := [mkEdge 0 1 "a"]]} [InfoEvaluating 1] in
  initial_locals self = loc
  ∧ loop_body id run_function_multithreaded_spec remove_dups self loc
      (initial_state tt)
    = Ret loc' st'
  ∧ (loc', done_edges_by_origin_vertex st')
    = bookkeeping remove_dups (local_graph self) loc ∅
  ∧ (∀ e, e ∈ edges_to_render loc →
          e ∈ done_get (done_edges_by_origin_vertex st') (origin e))
  ∧ (∀ e, e ∈ edges_to_render loc →
          (∀ e', e' ∈ default [] (out_edges (local_graph self) !! origin e) →
                 e' ∈ done_get (done_edges_by_origin_vertex st') (origin e)) →
          origin e ∈ end_vertices_indexes loc').
Proof.
  intros self loc loc' st'.
  split; [reflexivity|]. split; [vm_compute; reflexivity|].
  apply (pending_edges_are_recorded_done_whatever_the_strategy_did id
           run_function_multithreaded_spec remove_dups self loc (initial_state tt)
           loc' st').
  vm_compute; reflexivity.
Defined.

(** C9, as stated, fails when the strategy raises: on the graph 0→1 with the
    sequential dispatch, the edge 0→1 is to be rendered, the strategy raises
    for its group, the exception leaves the loop and the method, and the
    edge is not recorded as done. *)
Lemma raising_strategy_leaves_the_pending_edge_unrecorded :
  let self := failing_renderer 2 [mkEdge 0 1 "a"] 0 in
  edges_to_render (initial_locals self) = [mkEdge 0 1 "a"]
  ∧ render_variables_from_local_graph id run_function_multithreaded_spec
      remove_dups self 50 (initial_state tt)
    = Some (Raise (StrategyError "unresolvable")
        (mkRenderState tt ∅ [InfoEvaluating 1]))
  ∧ mkEdge 0 1 "a" ∉ done_get ∅ (origin (mkEdge 0 1 "a")).
Proof.
  split; [reflexivity|]. split; [vm_compute; reflexivity|].
  apply not_elem_of_nil.
Qed.

(** ** Graphs in which no vertex is ready *)

Section no_ready_vertex.
Context {World : Type}.
Variable calculate_hash : string → string.
Variable run_function_multithreaded :
  (list (list Edge) → World → outcome World (list Edge)) →
  list (list Edge) → Z → Z → World → outcome World unit.
Variable list_of_set : list Edge → list Edge.

Lemma no_ready_vertex_initial_locals (n : nat) (edges : list Edge)
    (update : World → World) (async : bool) (workers : Z)
    (evaluate : list Edge → World → outcome World unit)
    (fallback : World → World) :
  (∀ v, v ∈ vertex_indices n →
        ¬ (out_degree edges v = 0 ∧ in_degree edges v > 0)) →
  initial_locals
    (mkVariableRenderer World (graph_of_edges n edges update) async workers
       evaluate fallback)
  = mkLocals [] [] 0.
Proof.
  intros Hno. unfold initial_locals. simpl.
  assert (filter (λ v, (out_degree edges v =? 0) = true
                       ∧ (in_degree edges v >? 0) = true) (vertex_indices n)
          = []) as ->; [|done].
  induction (vertex_indices n) as [|v l IH]; [done|].
  rewrite filter_cons_False.
  - apply IH. intros v' Hv'. apply Hno. by right.
  - intros [Hout%Z.eqb_eq Hin%Z.gtb_gt]. apply (Hno v); [by left | done].
Qed.

Lemma no_ready_vertex_render (n : nat) (edges : list Edge)
    (update : World → World) (async : bool) (workers : Z)
    (evaluate : list Edge → World → outcome World unit)
    (fallback : World → World) (fuel : nat) (st : RenderState World) :
  (∀ v, v ∈ vertex_indices n →
        ¬ (out_degree edges v = 0 ∧ in_degree edges v > 0)) →
  let self :=
    mkVariableRenderer World (graph_of_edges n edges update) async workers
      evaluate fallback in
  initial_locals self = mkLocals [] [] 0
  ∧ main_loop calculate_hash run_function_multithreaded list_of_set self fuel
      (initial_locals self) st
    = Some (Ret (mkLocals [] [] 0) st)
  ∧ render_variables_from_local_graph calculate_hash run_function_multithreaded
      list_of_set self fuel st
    = Some (Ret tt
        (mkRenderState (fallback (update (world st)))
           (done_edges_by_origin_vertex st)
           (log st ++ [InfoDoneEvaluatingEdges; InfoDoneNonRendered]))).
Proof.
  intros Hno self.
  pose proof (no_ready_vertex_initial_locals n edges update async workers
                evaluate fallback Hno) as Hinit.
  fold self in Hinit. split; [done|].
  assert (main_loop calculate_hash run_function_multithreaded list_of_set self
            fuel (initial_locals self) st = Some (Ret (mkLocals [] [] 0) st)) as Hloop.
  { rewrite Hinit. by apply main_loop_nothing_to_render. }
  split; [done|].
  unfold render_variables_from_local_graph. rewrite Hloop.
  unfold after_loop, add_log. simpl. by rewrite <-app_assoc.
Qed.
End no_ready_vertex.

(** C10: when no vertex has out-degree 0 and in-degree greater than 0, the
    end vertices and the edges to render are empty when the loop is entered,
    so the loop returns with the counter at 0 and the state untouched: no
    group is dispatched, no [evaluating] record and no warning are logged.
    The method still returns, after the graph has updated the vertex
    configurations and the fallback pass has run. *)
Theorem no_vertex_ready_means_no_loop_iteration {World : Type}
    (calculate_hash : string → string)
    (run_function_multithreaded :
       (list (list Edge) → World → outcome World (list Edge)) →
       list (list Edge) → Z → Z → World → outcome World unit)
    (list_of_set : list Edge → list Edge)
    (n : nat) (edges : list Edge)
    (update : World → World) (async : bool) (workers : Z)
    (evaluate : list Edge → World → outcome World unit)
    (fallback : World → World) (fuel : nat) (st : RenderState World) :
  (∀ v, v ∈ vertex_indices n →
        ¬ (out_degree edges v = 0 ∧ in_degree edges v > 0)) →
  let self :=
    mkVariableRenderer World (graph_of_edges n edges update) async workers
      evaluate fallback in
  initial_locals self = mkLocals [] [] 0
  ∧ main_loop calculate_hash run_function_multithreaded list_of_set self fuel
      (initial_locals self) st
    = Some (Ret (mkLocals [] [] 0) st)
  ∧ render_variables_from_local_graph calculate_hash run_function_multithreaded
      list_of_set self fuel st
    = Some (Ret tt
        (mkRenderState (fallback (update (world st)))
           (done_edges_by_origin_vertex st)
           (log st ++ [InfoDoneEvaluatingEdges; InfoDoneNonRendered]))).
Proof. apply no_ready_vertex_render. Qed.

(** C10, at the cycle 0→1→2→0 with the renderer of the base class. *)
Lemma no_vertex_ready_means_no_loop_iteration_witness :
  let edges := [mkEdge 0 1 "a"; mkEdge 1 2 "b"; mkEdge 2 0 "c"] in
  let self := plain_renderer 3 edges in
  (∀ v, v ∈ vertex_indices 3 →
        ¬ (out_degree edges v = 0 ∧ in_degree edges v > 0))
  ∧ initial_locals self = mkLocals [] [] 0
  ∧ main_loop id run_function_multithreaded_spec remove_dups self 50
      (initial_locals self) (initial_state tt)
    = Some (Ret (mkLocals [] [] 0) (initial_state tt))
  ∧ render_variables_from_local_graph id run_function_multithreaded_spec
      remove_dups self 50 (initial_state tt)
    = Some (Ret tt
        (mkRenderState tt ∅ [InfoDoneEvaluatingEdges; InfoDoneNonRendered])).
Proof.
  intros edges self.
  assert (∀ v, v ∈ vertex_indices 3 →
               ¬ (out_degree edges v = 0 ∧ in_degree edges v > 0)) as Hno.
  { intros v Hv [Hout _]. change (vertex_indices 3) with [0; 1; 2] in Hv.
    repeat (apply elem_of_cons in Hv as [->|Hv]); try discriminate Hout.
    by apply elem_of_nil in Hv. }
  split; [exact Hno|].
  exact (no_vertex_ready_means_no_loop_iteration id run_function_multithreaded_spec
           remove_dups 3 edges id false 50 evaluate_nothing
           base_evaluate_non_rendered_values 50 (initial_state tt) Hno).
Defined.

(** C3, as amended: on the cycle A→B, B→A (0→1, 1→0) no vertex has
    out-degree 0, so nothing is to be rendered when the loop is entered: the
    body runs zero times, the counter stays at 0, the strategy is never
    called and no edge is recorded as done.  The method returns after the
    graph has updated the vertex configurations and the fallback pass has
    run on the untouched world. *)
Theorem two_cycle_loop_body_runs_zero_times {World : Type}
    (calculate_hash : string → string)
    (run_function_multithreaded :
       (list (list Edge) → World → outcome World (list Edge)) →
       list (list Edge) → Z → Z → World → outcome World unit)
    (list_of_set : list Edge → list Edge)
    (update : World → World) (async : bool) (workers : Z)
    (evaluate : list Edge → World → outcome World unit)
    (fallback : World → World) (la lb : string)
    (fuel : nat) (st : RenderState World) :
  let self :=
    mkVariableRenderer World (graph_of_edges 2 (two_cycle_edges la lb) update)
      async workers evaluate fallback in
  initial_locals self = mkLocals [] [] 0
  ∧ main_loop calculate_hash run_function_multithreaded list_of_set self fuel
      (initial_locals self) st
    = Some (Ret (mkLocals [] [] 0) st)
  ∧ render_variables_from_local_graph calculate_hash run_function_multithreaded
      list_of_set self fuel st
    = Some (Ret tt
        (mkRenderState (fallback (update (world st)))
           (done_edges_by_origin_vertex st)
           (log st ++ [InfoDoneEvaluatingEdges; InfoDoneNonRendered]))).
Proof.
  apply no_ready_vertex_render.
  intros v Hv [Hout _]. change (vertex_indices 2) with [0; 1] in Hv.
  repeat (apply elem_of_cons in Hv as [->|Hv]); try discriminate Hout.
  by apply elem_of_nil in Hv.
Qed.

(** C3, as stated, fails: on the cycle 0→1, 1→0 the loop ends with the
    counter at 0, not at the bound, and no run of the body is logged. *)
Lemma two_cycle_loop_does_not_run_to_the_bound :
  let self := plain_renderer 2 (two_cycle_edges "a" "b") in
  main_loop id run_function_multithreaded_spec remove_dups self 50
    (initial_locals self) (initial_state tt)
  = Some (Ret (mkLocals [] [] 0) (mkRenderState tt ∅ []))
  ∧ loops (mkLocals [] [] 0) ≠ MAX_NUMBER_OF_LOOPS
  ∧ body_runs (log (mkRenderState tt ∅ [])) ≠ 50%nat.
Proof. split; [vm_compute; reflexivity | split; discriminate]. Qed.

(** ** The chain of three links *)

Section chain_facts.
Context {World : Type}.
Variable list_of_set : list Edge → list Edge.
Variable update : World → World.
Variables la lb lc : string.
Hypothesis Hset : set_listing list_of_set.

Local Abbreviation g :=
  (graph_of_edges (World:=World) 4 (chain_edges la lb lc) update).
Local Abbreviation e01 := (mkEdge 0 1 la).
Local Abbreviation e12 := (mkEdge 1 2 lb).
Local Abbreviation e23 := (mkEdge 2 3 lc).

Lemma chain_step_1 :
  bookkeeping list_of_set g (mkLocals [3] [e23] 0) ∅
  = (mkLocals [3; 2] [e12] 1, {[2 := [e23]]}).
Proof.
  unfold bookkeeping. cbn [edges_to_render end_vertices_indexes loops fold_left].
  change (record_done ∅ e23) with ({[2 := [e23]]} : gmap Z (list Edge)).
  assert (extend_end_vertices g {[2 := [e23]]} [3] e23 = [3; 2]) as ->.
  { unfold extend_end_vertices. cbn [origin].
    change (default [] (out_edges g !! 2)) with [e23].
    change (done_get {[2 := [e23]]} 2) with [e23].
    cbn [forallb]. by rewrite edge_in_singleton. }
  unfold next_edges_to_render.
  change (get_in_edges g [3; 2]) with [e23; e12].
  rewrite filter_cons_False; [|cbn [origin];
    change (done_get {[2 := [e23]]} 2) with [e23]; by rewrite edge_in_singleton].
  rewrite filter_cons_True by done.
  rewrite filter_nil, (set_listing_singleton _ _ Hset). done.
Qed.

Lemma chain_step_2 :
  bookkeeping list_of_set g (mkLocals [3; 2] [e12] 1) {[2 := [e23]]}
  = (mkLocals [3; 2; 1] [e01] 2, {[2 := [e23]; 1 := [e12]]}).
Proof.
  unfold bookkeeping. cbn [edges_to_render end_vertices_indexes loops fold_left].
  change (record_done {[2 := [e23]]} e12)
    with ({[2 := [e23]; 1 := [e12]]} : gmap Z (list Edge)).
  set (D := ({[2 := [e23]; 1 := [e12]]} : gmap Z (list Edge))).
  assert (extend_end_vertices g D [3; 2] e12 = [3; 2; 1]) as ->.
  { unfold extend_end_vertices. cbn [origin].
    change (default [] (out_edges g !! 1)) with [e12].
    change (done_get D 1) with [e12].
    cbn [forallb]. by rewrite edge_in_singleton. }
  unfold next_edges_to_render.
  change (get_in_edges g [3; 2; 1]) with [e23; e12; e01].
  rewrite filter_cons_False; [|cbn [origin];
    change (done_get D 2) with [e23]; by rewrite edge_in_singleton].
  rewrite filter_cons_False; [|cbn [origin];
    change (done_get D 1) with [e12]; by rewrite edge_in_singleton].
  rewrite filter_cons_True by done.
  rewrite filter_nil, (set_listing_singleton _ _ Hset). done.
Qed.

Lemma chain_step_3 :
  bookkeeping list_of_set g (mkLocals [3; 2; 1] [e01] 2) {[2 := [e23]; 1 := [e12]]}
  = (mkLocals [3; 2; 1; 0] [] 3, {[2 := [e23]; 1 := [e12]; 0 := [e01]]}).
Proof.
  unfold bookkeeping. cbn [edges_to_render end_vertices_indexes loops fold_left].
  change (record_done {[2 := [e23]; 1 := [e12]]} e01)
    with ({[2 := [e23]; 1 := [e12]; 0 := [e01]]} : gmap Z (list Edge)).
  set (D := ({[2 := [e23]; 1 := [e12]; 0 := [e01]]} : gmap Z (list Edge))).
  assert (extend_end_vertices g D [3; 2; 1] e01 = [3; 2; 1; 0]) as ->.
  { unfold extend_end_vertices. cbn [origin].
    change (default [] (out_edges g !! 0)) with [e01].
    change (done_get D 0) with [e01].
    cbn [forallb]. by rewrite edge_in_singleton. }
  unfold next_edges_to_render.
  change (get_in_edges g [3; 2; 1; 0]) with [e23; e12; e01].
  rewrite filter_cons_False; [|cbn [origin];
    change (done_get D 2) with [e23]; by rewrite edge_in_singleton].
  rewrite filter_cons_False; [|cbn [origin];
    change (done_get D 1) with [e12]; by rewrite edge_in_singleton].
  rewrite filter_cons_False; [|cbn [origin];
    change (done_get D 0) with [e01]; by rewrite edge_in_singleton].
  rewrite filter_nil, (set_listing_nil _ Hset). done.
Qed.
End chain_facts.

(** C7: on the chain A→B→C→D (0→1→2→3), when the dispatch returns for
    every group, the loop ends after exactly 3 runs of the body with nothing
    left to render: the counter is 3, the log holds three [evaluating 1
    edges] records and no warning, and each run has recorded one link as
    done (C→D, then B→C, then A→B). *)
Theorem chain_of_three_links_converges_in_3_iterations {World : Type}
    (calculate_hash : string → string)
    (run_function_multithreaded :
       (list (list Edge) → World → outcome World (list Edge)) →
       list (list Edge) → Z → Z → World → outcome World unit)
    (list_of_set : list Edge → list Edge)
    (update : World → World) (async : bool) (workers : Z)
    (evaluate : list Edge → World → outcome World unit)
    (fallback : World → World) (la lb lc : string) (extra : nat) (w : World) :
  set_listing list_of_set →
  (∀ groups w0, ∃ w1,
      dispatch run_function_multithreaded evaluate async workers groups w0
      = Ret tt w1) →
  let self :=
    mkVariableRenderer World (graph_of_edges 4 (chain_edges la lb lc) update)
      async workers evaluate fallback in
  ∃ w',
    main_loop calculate_hash run_function_multithreaded list_of_set self
      (3 + extra) (initial_locals self) (initial_state w)
    = Some (Ret (mkLocals [3; 2; 1; 0] [] 3)
        (mkRenderState w'
           {[2 := [mkEdge 2 3 lc]; 1 := [mkEdge 1 2 lb]; 0 := [mkEdge 0 1 la]]}
           [InfoEvaluating 1; InfoEvaluating 1; InfoEvaluating 1])).
Proof.
  intros Hset Hok self.
  change (initial_locals self) with (mkLocals [3] [mkEdge 2 3 lc] 0).
  change (3 + extra)%nat with (S (S (S extra))).
  edestruct (main_loop_turn calculate_hash run_function_multithreaded list_of_set
               self (S (S extra)) (mkLocals [3] [mkEdge 2 3 lc] 0) (initial_state w))
    as [w1 ->]; [exact Hok | done | exact (chain_step_1 _ update la lb lc Hset) | done |].
  edestruct (main_loop_turn calculate_hash run_function_multithreaded list_of_set
               self (S extra) (mkLocals [3; 2] [mkEdge 1 2 lb] 1))
    as [w2 ->]; [exact Hok | done | exact (chain_step_2 _ update la lb lc Hset) | done |].
  edestruct (main_loop_turn calculate_hash run_function_multithreaded list_of_set
               self extra (mkLocals [3; 2; 1] [mkEdge 0 1 la] 2))
    as [w3 ->]; [exact Hok | done | exact (chain_step_3 _ update la lb lc Hset) | done |].
  exists w3. by apply main_loop_nothing_to_render.
Qed.

(** C7, at the labels a, b, c with the renderer of the base class. *)
Lemma chain_of_three_links_converges_in_3_iterations_witness :
  let self := plain_renderer 4 (chain_edges "a" "b" "c") in
  set_listing remove_dups
  ∧ (∀ groups (w0 : unit), ∃ w1,
       dispatch run_function_multithreaded_spec evaluate_nothing false 50 groups w0
       = Ret tt w1)
  ∧ ∃ w',
      main_loop id run_function_multithreaded_spec remove_dups self (3 + 47)
        (initial_locals self) (initial_state tt)
      = Some (Ret (mkLocals [3; 2; 1; 0] [] 3)
          (mkRenderState w'
             {[2 := [mkEdge 2 3 "c"]; 1 := [mkEdge 1 2 "b"]; 0 := [mkEdge 0 1 "a"]]}
             [InfoEvaluating 1; InfoEvaluating 1; InfoEvaluating 1])).
Proof.
  intros self.
  assert (∀ groups (w0 : unit), ∃ w1,
            dispatch run_function_multithreaded_spec evaluate_nothing false 50
              groups w0 = Ret tt w1) as Hok.
  { intros groups w0. exists w0. apply evaluate_nothing_dispatch. }
  split; [exact set_listing_remove_dups|]. split; [exact Hok|].
  exact (chain_of_three_links_converges_in_3_iterations id
           run_function_multithreaded_spec remove_dups id false 50
           evaluate_nothing base_evaluate_non_rendered_values "a" "b" "c" 47 tt
           set_listing_remove_dups Hok).
Defined.

(** * Further properties *)

(** ** Grouping *)

Lemma filter_none {A : Type} (P : A → Prop) `{∀ x, Decision (P x)} (l : list A) :
  (∀ x, x ∈ l → ¬ P x) → filter P l = [].
Proof.
  induction l as [|x l IH]; intros Hno; [done|].
  rewrite filter_cons_False by (apply Hno; by left).
  apply IH. intros y Hy. apply Hno. by right.
Qed.

Section grouping_more.
Variable calculate_hash : string → string.
Local Abbreviation key := (origin_and_label_hash calculate_hash).
Local Abbreviation step := (group_step calculate_hash).
Local Abbreviation wg := (well_grouped calculate_hash).
Implicit Types (d : list (string * list Edge)) (e : Edge) (l : list Edge).

Lemma buckets_of_nil : buckets_of calculate_hash [] [].
Proof.
  split_and!; [constructor | |].
  - intros e He. by apply elem_of_nil in He.
  - intros k l Hin. by apply elem_of_nil in Hin.
Qed.

Lemma buckets_of_step es d e :
  buckets_of calculate_hash es d → buckets_of calculate_hash (es ++ [e]) (step d e).
Proof.
  intros (Hnd & Hcov & Hb).
  destruct (PyDict.get d (key e)) as [l|] eqn:Hget.
  - apply get_Some in Hget as (d1 & d2 & -> & Hk).
    assert ((key e, l) ∈ d1 ++ (key e, l) :: d2) as Hin
      by (apply elem_of_app; right; by left).
    destruct (Hb _ _ Hin) as [Hl Hfil].
    destruct l as [|e0 l]; [done|].
    rewrite group_step_present by done.
    rewrite fmap_app in Hnd, Hcov. simpl in Hnd, Hcov.
    split_and!.
    + by rewrite fmap_app.
    + rewrite fmap_app. simpl.
      intros e' [He'| ->%list_elem_of_singleton]%elem_of_app; [by apply Hcov|].
      apply elem_of_app. right. by left.
    + intros k' l' Hin'. rewrite filter_app.
      apply elem_of_app in Hin' as [Hin'|Hin'].
      * assert (k' ≠ key e) as Hne.
        { intros ->. apply Hk. apply list_elem_of_fmap. by exists (key e, l'). }
        destruct (Hb k' l') as [? ->]; [apply elem_of_app; by left|].
        split; [done|]. rewrite (filter_cons_False _ e) by (simpl; congruence).
        by rewrite filter_nil, app_nil_r.
      * apply elem_of_cons in Hin' as [Hin'|Hin'].
        -- injection Hin' as -> ->. split; [done|].
           rewrite <-Hfil. by rewrite filter_cons_True, filter_nil by done.
        -- assert (k' ≠ key e) as Hne.
           { intros ->. apply NoDup_app in Hnd as (_ & _ & Hnd2).
             apply NoDup_cons in Hnd2 as [Hnot _]. apply Hnot.
             apply list_elem_of_fmap. by exists (key e, l'). }
           destruct (Hb k' l') as [? ->]; [apply elem_of_app; right; by right|].
           split; [done|]. rewrite (filter_cons_False _ e) by (simpl; congruence).
           by rewrite filter_nil, app_nil_r.
  - apply get_None in Hget. rewrite group_step_fresh by done. split_and!.
    + rewrite fmap_app. simpl. apply NoDup_app. split_and!; [done| |apply NoDup_singleton].
      intros x Hx ->%list_elem_of_singleton. done.
    + rewrite fmap_app. simpl.
      intros e' [He'| ->%list_elem_of_singleton]%elem_of_app.
      * apply elem_of_app. left. by apply Hcov.
      * apply elem_of_app. right. by left.
    + intros k' l' Hin'. rewrite filter_app.
      apply elem_of_app in Hin' as [Hin'|Hin'%list_elem_of_singleton].
      * assert (k' ≠ key e) as Hne.
        { intros ->. apply Hget. apply list_elem_of_fmap. by exists (key e, l'). }
        destruct (Hb k' l' Hin') as [? ->].
        split; [done|]. rewrite (filter_cons_False _ e) by (simpl; congruence).
        by rewrite filter_nil, app_nil_r.
      * injection Hin' as -> ->. split; [done|].
        assert (filter (λ e0, key e0 = key e) es = []) as ->.
        { apply filter_none. intros e' He' Hkey. apply Hget. rewrite <-Hkey.
          by apply Hcov. }
        by rewrite filter_cons_True, filter_nil by done.
Qed.

Lemma buckets_of_fold es :
  buckets_of calculate_hash es (fold_left step es []).
Proof.
  induction es as [|e es IH] using rev_ind; [apply buckets_of_nil|].
  rewrite fold_left_app. simpl. by apply buckets_of_step.
Qed.

Lemma concat_step d e :
  concat (step d e).*2 ≡ₚ concat d.*2 ++ [e].
Proof.
  destruct (PyDict.get d (key e)) as [l|] eqn:Hget.
  - apply get_Some in Hget as (d1 & d2 & -> & Hk).
    unfold group_step, append_at. rewrite get_middle by done.
    destruct l as [|e0 l]; simpl.
    + rewrite set_middle, get_middle, set_middle by done.
      rewrite !fmap_app, !concat_app. simpl.
      rewrite <-!app_assoc. apply Permutation_app_head.
      simpl. by rewrite Permutation_app_comm.
    + rewrite get_middle, set_middle by done.
      rewrite !fmap_app, !concat_app. simpl.
      rewrite <-!app_assoc. apply Permutation_app_head. simpl. constructor.
      rewrite <-!app_assoc. apply Permutation_app_head.
      by rewrite Permutation_app_comm.
  - apply get_None in Hget. rewrite group_step_fresh by done.
    by rewrite fmap_app, concat_app.
Qed.

Lemma concat_fold es d :
  concat (fold_left step es d).*2 ≡ₚ concat d.*2 ++ es.
Proof.
  revert d. induction es as [|e es IH]; intros d; simpl.
  - by rewrite app_nil_r.
  - rewrite IH, concat_step. by rewrite <-app_assoc.
Qed.

(** X1: the groups partition the input: flattened, they hold every input
    edge as many times as the input does, and nothing else. *)
Theorem groups_partition_the_edges (edges : list Edge) :
  concat (group_edges_by_origin_and_label calculate_hash edges) ≡ₚ edges.
Proof.
  unfold group_edges_by_origin_and_label, PyDict.values.
  by rewrite concat_fold.
Qed.

(** X2: a group is never empty, and it is the list of all the input edges
    of one hash, in the order of the input. *)
Theorem group_is_the_edges_of_one_hash_in_input_order (edges g : list Edge) :
  g ∈ group_edges_by_origin_and_label calculate_hash edges →
  g ≠ [] ∧ ∃ k, g = filter (λ e, key e = k) edges.
Proof.
  unfold group_edges_by_origin_and_label, PyDict.values.
  intros ([k l] & -> & Hin)%list_elem_of_fmap. simpl.
  destruct (buckets_of_fold edges) as (_ & _ & Hb).
  destruct (Hb _ _ Hin) as [Hne Hfil]. split; [done|]. by exists k.
Qed.

(** X3: edges of one hash are in one group: two groups that hold edges of
    equal hash are the same entry of the result. *)
Theorem edges_of_one_hash_share_one_group (edges : list Edge) (i j : nat)
    (g1 g2 : list Edge) (e1 e2 : Edge) :
  group_edges_by_origin_and_label calculate_hash edges !! i = Some g1 →
  group_edges_by_origin_and_label calculate_hash edges !! j = Some g2 →
  e1 ∈ g1 → e2 ∈ g2 → key e1 = key e2 → i = j.
Proof.
  unfold group_edges_by_origin_and_label, PyDict.values.
  rewrite !list_lookup_fmap.
  destruct (fold_left step edges [] !! i) as [[k1 l1]|] eqn:Hi; [|done].
  destruct (fold_left step edges [] !! j) as [[k2 l2]|] eqn:Hj; [|done].
  simpl. intros [= <-] [= <-] He1 He2 Hkey.
  destruct (buckets_of_fold edges) as (Hnd & _ & Hb).
  destruct (Hb k1 l1) as [_ Hf1]; [by eapply list_elem_of_lookup_2|].
  destruct (Hb k2 l2) as [_ Hf2]; [by eapply list_elem_of_lookup_2|].
  rewrite Hf1 in He1. rewrite Hf2 in He2.
  apply list_elem_of_filter in He1 as [Hk1 _].
  apply list_elem_of_filter in He2 as [Hk2 _].
  apply (NoDup_lookup _ i j k1 Hnd).
  - by rewrite list_lookup_fmap, Hi.
  - rewrite list_lookup_fmap, Hj. simpl. congruence.
Qed.

(** X4: input edges with the same origin and the same label are never
    split: one group of the result holds both. *)
Theorem edges_of_one_origin_and_label_are_grouped_together
    (edges : list Edge) (e1 e2 : Edge) :
  e1 ∈ edges → e2 ∈ edges →
  origin e1 = origin e2 → label e1 = label e2 →
  ∃ g, g ∈ group_edges_by_origin_and_label calculate_hash edges
       ∧ e1 ∈ g ∧ e2 ∈ g.
Proof.
  intros He1 He2 Ho Hl.
  destruct (buckets_of_fold edges) as (_ & Hcov & Hb).
  apply Hcov in He1 as Hk. apply list_elem_of_fmap in Hk as ([k l] & Hk & Hin).
  simpl in Hk. subst k. exists l. split.
  - unfold group_edges_by_origin_and_label, PyDict.values.
    apply list_elem_of_fmap. by exists (key e1, l).
  - destruct (Hb _ _ Hin) as [_ ->].
    split; apply list_elem_of_filter; split; try done.
    unfold origin_and_label_hash. by rewrite Ho, Hl.
Qed.
End grouping_more.

(** ** The text that is hashed *)

Lemma append_String (a : Ascii.ascii) (s l : string) :
  String a s +:+ l = String a (s +:+ l).
Proof. reflexivity. Qed.

Lemma append_empty (l : string) : "" +:+ l = l.
Proof. reflexivity. Qed.

Lemma digits_then_rest (u u' : Decimal.uint) (l l' : string) :
  begins_with_digit l = false → begins_with_digit l' = false →
  NilEmpty.string_of_uint u +:+ l = NilEmpty.string_of_uint u' +:+ l' →
  u = u' ∧ l = l'.
Proof.
  intros Hl Hl'. revert u'.
  induction u as [|u IH|u IH|u IH|u IH|u IH|u IH|u IH|u IH|u IH|u IH];
    intros [|u'|u'|u'|u'|u'|u'|u'|u'|u'|u'];
    cbn [NilEmpty.string_of_uint]; rewrite ?append_String, ?append_empty;
    intros Heq;
    try (split; [reflexivity | exact Heq]);
    try (rewrite Heq in Hl; discriminate Hl);
    try (rewrite <-Heq in Hl'; discriminate Hl');
    try discriminate Heq;
    injection Heq as Heq; destruct (IH _ Heq) as [-> ->]; done.
Qed.

Lemma string_of_uint_nonnil_begins_with_digit (u : Decimal.uint) (l : string) :
  u ≠ Decimal.Nil →
  ∃ a s, NilEmpty.string_of_uint u +:+ l = String a s
         ∧ begins_with_digit (String a s) = true.
Proof.
  destruct u; [done|..]; intros _;
    cbn [NilEmpty.string_of_uint]; rewrite append_String; eauto.
Qed.

Lemma py_str_int_then_label (n m : Z) (l l' : string) :
  begins_with_digit l = false → begins_with_digit l' = false →
  py_str_int n +:+ l = py_str_int m +:+ l' → n = m ∧ l = l'.
Proof.
  intros Hl Hl'. unfold py_str_int.
  assert (∀ z, ∃ u, u ≠ Decimal.Nil
            ∧ (Z.to_int z = Decimal.Pos u ∨ Z.to_int z = Decimal.Neg u)) as Hshape.
  { intros [|p|p]; simpl.
    - exists (Decimal.D0 Decimal.Nil). split; [done | by left].
    - exists (Pos.to_uint p). split; [apply Unsigned.to_uint_nonnil | by left].
    - exists (Pos.to_uint p). split; [apply Unsigned.to_uint_nonnil | by right]. }
  assert (∀ u, u ≠ Decimal.Nil →
            NilZero.string_of_uint u = NilEmpty.string_of_uint u) as Hnz.
  { by intros []. }
  destruct (Hshape n) as (u & Hu & Hn), (Hshape m) as (u' & Hu' & Hm).
  intros Heq.
  assert (Z.to_int n = Z.to_int m ∧ l = l') as [Hto ->];
    [|split; [by apply to_int_inj | done]].
  destruct Hn as [Hn|Hn], Hm as [Hm|Hm]; rewrite Hn, Hm in Heq |- *;
    cbn [NilZero.string_of_int] in Heq; rewrite ?Hnz in Heq by done;
    rewrite ?append_String in Heq.
  - by destruct (digits_then_rest u u' l l' Hl Hl' Heq) as [-> ->].
  - destruct (string_of_uint_nonnil_begins_with_digit u l Hu) as (a & s & Hs & Hd).
    rewrite Hs in Heq. injection Heq as -> _. discriminate Hd.
  - destruct (string_of_uint_nonnil_begins_with_digit u' l' Hu') as (a & s & Hs & Hd).
    rewrite Hs in Heq. injection Heq as <- _. discriminate Hd.
  - injection Heq as Heq.
    by destruct (digits_then_rest u u' l l' Hl Hl' Heq) as [-> ->].
Qed.

(** ** Sequential dispatch *)

Section dispatch_more.
Context {World : Type}.
Variable evaluate : list Edge → World → outcome World unit.
Implicit Types (w : World) (tr : list (list Edge)).

Lemma for_each_group_app groups1 groups2 w :
  for_each_group evaluate (groups1 ++ groups2) w
  = match for_each_group evaluate groups1 w with
    | Ret _ w1 => for_each_group evaluate groups2 w1
    | Raise e w1 => Raise e w1
    end.
Proof.
  revert w. induction groups1 as [|g groups1 IH]; intros w; simpl; [done|].
  destruct (evaluate g w) as [[] w1|e w1]; [apply IH | done].
Qed.

(** X6: an exception of the sequential dispatch is an exception of the
    strategy: the strategy returned for the groups before some group and
    raised that exception, leaving that world, for this group.  The loop
    passes a list of one group to [_edge_evaluation_task], so [edges[0]]
    never raises. *)
Theorem sequential_dispatch_raises_what_the_strategy_raised
    groups w e w' :
  for_each_group evaluate groups w = Raise e w' →
  ∃ before failing after w1,
    groups = before ++ failing :: after
    ∧ for_each_group evaluate before w = Ret tt w1
    ∧ evaluate failing w1 = Raise e w'.
Proof.
  revert w. induction groups as [|g groups IH]; intros w; simpl; [done|].
  destruct (evaluate g w) as [[] w1|e1 w1] eqn:Hg.
  - intros (before & failing & after & w2 & -> & Hbefore & Hfail)%IH.
    exists (g :: before), failing, after, w2. split; [done|]. simpl.
    by rewrite Hg.
  - intros [= -> ->]. by exists [], g, groups, w.
Qed.

Lemma for_each_group_traced_once groups w tr w' tr' :
  for_each_group (traced evaluate) groups (w, tr) = Ret tt (w', tr') →
  tr' = tr ++ groups ∧ for_each_group evaluate groups w = Ret tt w'.
Proof.
  revert w tr. induction groups as [|g groups IH]; intros w tr; simpl.
  - intros [= -> ->]. by rewrite app_nil_r.
  - unfold traced at 1. simpl. destruct (evaluate g w) as [[] w1|e w1]; [|done].
    intros [-> Hrest]%IH. by rewrite <-app_assoc.
Qed.
(** X7: when the sequential dispatch returns, the strategy has been called
    once with every group, in input order, and with nothing else, and the
    world is the one these calls leave. *)
Theorem sequential_dispatch_calls_the_strategy_once_per_group
    groups w tr w' tr' :
  for_each_group (traced evaluate) groups (w, tr) = Ret tt (w', tr') →
  tr' = tr ++ groups ∧ for_each_group evaluate groups w = Ret tt w'.
Proof. apply for_each_group_traced_once. Qed.
End dispatch_more.

(** ** The two loops of the bookkeeping and the next edges *)

Section bookkeeping_more.
Context {World : Type}.
Variable list_of_set : list Edge → list Edge.
Variable graph : LocalGraph World.
Implicit Types (done : gmap Z (list Edge)) (e : Edge) (v : Z).

Lemma fold_record_done_get (pending : list Edge) done v :
  done_get (fold_left record_done pending done) v
  = done_get done v ++ filter (λ e, origin e = v) pending.
Proof.
  revert done. induction pending as [|e pending IH]; intros done; simpl.
  - by rewrite app_nil_r.
  - rewrite IH, done_get_record_done. case_decide as Hv.
    + subst v. rewrite filter_cons_True by done. by rewrite <-app_assoc.
    + rewrite filter_cons_False; [done | congruence].
Qed.

Lemma forallb_edge_in (out l : list Edge) :
  forallb (λ e, edge_in e l) out = true ↔ out ⊆ l.
Proof.
  rewrite forallb_forall. split.
  - intros Hall e He. apply edge_in_true, Hall. by apply list_elem_of_In.
  - intros Hsub e He. apply edge_in_true, Hsub. by apply list_elem_of_In.
Qed.

Lemma fold_extend_end_vertices_eq
    (pending : list Edge) done (end_vertices : list Z) :
  fold_left (extend_end_vertices graph done) pending end_vertices
  = end_vertices
    ++ (origin <$>
        filter (λ e, default [] (out_edges graph !! origin e)
                     ⊆ done_get done (origin e)) pending).
Proof.
  revert end_vertices. induction pending as [|e pending IH]; intros ends; simpl.
  - by rewrite app_nil_r.
  - rewrite IH. unfold extend_end_vertices.
    destruct (forallb _ _) eqn:Hall.
    + apply forallb_edge_in in Hall. rewrite filter_cons_True by done.
      simpl. by rewrite <-app_assoc.
    + rewrite filter_cons_False; [done|].
      intros Hsub%forallb_edge_in. congruence.
Qed.

Lemma next_edges_to_render_spec done (end_vertices : list Z) :
  set_listing list_of_set →
  NoDup (next_edges_to_render list_of_set graph done end_vertices)
  ∧ ∀ e, e ∈ next_edges_to_render list_of_set graph done end_vertices
         ↔ e ∈ get_in_edges graph end_vertices
           ∧ e ∉ done_get done (origin e).
Proof.
  intros Hset. unfold next_edges_to_render.
  destruct (Hset (filter (λ edge, edge_in edge (done_get done (origin edge)) = false)
                    (get_in_edges graph end_vertices))) as [Hnd Hin].
  split; [done|]. intros e. rewrite Hin, list_elem_of_filter.
  split.
  - intros [Hnot Hg]. split; [done|]. intros Hd%edge_in_true. congruence.
  - intros [Hg Hnot]. split; [|done].
    destruct (edge_in e (done_get done (origin e))) eqn:Hd; [|done].
    by apply edge_in_true in Hd.
Qed.
(** X9: the first [for] loop of the body appends to the list of each vertex
    the edges to render of that origin, in order; a vertex that had no list
    gets one. *)
Theorem recording_appends_the_pending_edges_of_each_origin
    (pending : list Edge) done v :
  done_get (fold_left record_done pending done) v
  = done_get done v ++ filter (λ e, origin e = v) pending.
Proof. apply fold_record_done_get. Qed.

(** X10: the second [for] loop of the body appends to the end vertices the
    origin of every edge to render all of whose sibling out-edges are done,
    once for each such edge: a vertex resolved through several edges is
    appended several times. *)
Theorem end_vertices_gain_the_origin_of_each_resolved_pending_edge
    (pending : list Edge) done (end_vertices : list Z) :
  fold_left (extend_end_vertices graph done) pending end_vertices
  = end_vertices
    ++ (origin <$>
        filter (λ e, default [] (out_edges graph !! origin e)
                     ⊆ done_get done (origin e)) pending).
Proof. apply fold_extend_end_vertices_eq. Qed.

(** X11: the edges to render next are the edges entering the end vertices
    that are not recorded as done for their origin, each listed once. *)
Theorem next_edges_are_undone_in_edges_listed_once
    done (end_vertices : list Z) :
  set_listing list_of_set →
  NoDup (next_edges_to_render list_of_set graph done end_vertices)
  ∧ ∀ e, e ∈ next_edges_to_render list_of_set graph done end_vertices
         ↔ e ∈ get_in_edges graph end_vertices
           ∧ e ∉ done_get done (origin e).
Proof. apply next_edges_to_render_spec. Qed.
End bookkeeping_more.

(** ** Invariants of the main loop *)

Section loop_more.
Context {World : Type}.
Variable calculate_hash : string → string.
Variable run_function_multithreaded :
  (list (list Edge) → World → outcome World (list Edge)) →
  list (list Edge) → Z → Z → World → outcome World unit.
Variable list_of_set : list Edge → list Edge.
Variable self : VariableRenderer World.

Local Abbreviation body :=
  (loop_body calculate_hash run_function_multithreaded list_of_set self).
Local Abbreviation loop :=
  (main_loop calculate_hash run_function_multithreaded list_of_set self).
Local Abbreviation render :=
  (render_variables_from_local_graph calculate_hash run_function_multithreaded
     list_of_set self).
Local Abbreviation books := (bookkeeping list_of_set (local_graph self)).
Local Abbreviation run_dispatch :=
  (dispatch run_function_multithreaded (evaluate_vertex_attribute_from_edge self)
     (run_async self) (max_workers self)).
Implicit Types (loc : Locals) (st : RenderState World)
  (out : outcome (RenderState World) Locals).

(** A property of the bookkeeping that holds when the loop is entered and
    that every run of the body keeps holds when the loop ends, however it
    ends. *)
Lemma main_loop_keeps (I : Locals → gmap Z (list Edge) → Prop) fuel loc st out :
  (∀ loc0 done0, I loc0 done0 →
     I (books loc0 done0).1 (books loc0 done0).2) →
  I loc (done_edges_by_origin_vertex st) →
  loop fuel loc st = Some out →
  ∃ loc', I loc' (done_edges_by_origin_vertex (outcome_state out))
          ∧ ∀ loc1 st1, out = Ret loc1 st1 → loc1 = loc'.
Proof.
  intros Hstep. revert loc st. induction fuel as [|fuel IH]; intros loc st HI; simpl.
  - destruct (edges_to_render loc) as [|e0 rest]; [|done].
    intros [= <-]. exists loc. split; [done|]. by intros ?? [= -> _].
  - destruct (edges_to_render loc) as [|e0 rest].
    { intros [= <-]. exists loc. split; [done|]. by intros ?? [= -> _]. }
    destruct (body loc st) as [loc1 st1|exn st1] eqn:Hbody.
    + apply loop_body_Ret in Hbody as (w' & _ & Hb & _).
      specialize (Hstep _ _ HI). rewrite <-Hb in Hstep. simpl in Hstep.
      destruct (loops loc1 >=? MAX_NUMBER_OF_LOOPS).
      * intros [= <-]. exists loc1. split; [done|]. by intros ?? [= -> _].
      * by apply IH.
    + apply loop_body_Raise in Hbody. intros [= <-]. exists loc. simpl.
      rewrite Hbody. split; [done|]. done.
Qed.

(** X12: if every recorded edge is filed under its origin vertex when the
    loop is entered, the same holds when the loop ends, whether it returns
    or raises. *)
Theorem done_edges_are_filed_under_their_origin fuel loc st out :
  (∀ v e, e ∈ done_get (done_edges_by_origin_vertex st) v → origin e = v) →
  main_loop calculate_hash run_function_multithreaded list_of_set self fuel
    loc st
  = Some out →
  ∀ v e,
    e ∈ done_get (done_edges_by_origin_vertex (outcome_state out)) v →
    origin e = v.
Proof.
  intros Hinv Hloop.
  destruct (main_loop_keeps
              (λ _ done, ∀ v e, e ∈ done_get done v → origin e = v)
              fuel loc st out) as (_ & Hout & _); [|done|done|done].
  intros loc0 done0 H0 v e. unfold bookkeeping. simpl.
  rewrite fold_record_done_get.
  intros [He|He%list_elem_of_filter]%elem_of_app; [by apply H0 | by destruct He].
Qed.

(** X13: the done edges only grow: the list of a vertex when the loop is
    entered is a prefix of its list when the loop ends, whether it returns
    or raises. *)
Theorem done_edges_only_grow fuel loc st out v :
  main_loop calculate_hash run_function_multithreaded list_of_set self fuel
    loc st
  = Some out →
  done_get (done_edges_by_origin_vertex st) v
  `prefix_of` done_get (done_edges_by_origin_vertex (outcome_state out)) v.
Proof.
  intros Hloop.
  destruct (main_loop_keeps
              (λ _ done, done_get (done_edges_by_origin_vertex st) v
                         `prefix_of` done_get done v)
              fuel loc st out) as (_ & Hout & _); [|done|done|done].
  intros loc0 done0 H0. unfold bookkeeping. simpl.
  rewrite fold_record_done_get. by apply prefix_app_r.
Qed.

(** X14: the end vertices only grow: the list when the loop is entered is a
    prefix of the list when the loop returns. *)
Theorem end_vertices_only_grow fuel loc st loc' st' :
  main_loop calculate_hash run_function_multithreaded list_of_set self fuel
    loc st
  = Some (Ret loc' st') →
  end_vertices_indexes loc `prefix_of` end_vertices_indexes loc'.
Proof.
  intros Hloop.
  destruct (main_loop_keeps
              (λ loc1 _, end_vertices_indexes loc `prefix_of` end_vertices_indexes loc1)
              fuel loc st (Ret loc' st')) as (loc1 & Hout & Heq);
    [|done|exact Hloop|].
  - intros loc0 done0 H0. unfold bookkeeping. simpl.
    rewrite fold_extend_end_vertices_eq. by apply prefix_app_r.
  - by rewrite (Heq _ _ eq_refl).
Qed.

Lemma no_edge_twice_bookkeeping loc done :
  set_listing list_of_set →
  no_edge_twice loc done →
  no_edge_twice (books loc done).1 (books loc done).2.
Proof.
  intros Hset (Hnd & Hnot & Hdone). unfold bookkeeping. simpl.
  destruct (next_edges_to_render_spec list_of_set (local_graph self)
              (fold_left record_done (edges_to_render loc) done)
              (fold_left
                 (extend_end_vertices (local_graph self)
                    (fold_left record_done (edges_to_render loc) done))
                 (edges_to_render loc) (end_vertices_indexes loc)) Hset)
    as [Hnd' Hin'].
  split_and!; simpl.
  - done.
  - intros e He. by apply Hin' in He as [_ ?].
  - intros v. rewrite fold_record_done_get. apply NoDup_app. split_and!.
    + apply Hdone.
    + intros e He [Ho Hp]%list_elem_of_filter. subst v. by apply (Hnot e).
    + by apply NoDup_filter.
Qed.

(** X15: no edge is recorded twice.  If the edges to render are listed
    once and are not done when the loop is entered, and no list of done
    edges has a repetition, then no list of done edges has a repetition
    when the loop ends. *)
Theorem no_edge_is_recorded_twice fuel loc st out :
  set_listing list_of_set →
  NoDup (edges_to_render loc) →
  (∀ e, e ∈ edges_to_render loc →
        e ∉ done_get (done_edges_by_origin_vertex st) (origin e)) →
  (∀ v, NoDup (done_get (done_edges_by_origin_vertex st) v)) →
  main_loop calculate_hash run_function_multithreaded list_of_set self fuel
    loc st
  = Some out →
  ∀ v, NoDup (done_get (done_edges_by_origin_vertex (outcome_state out)) v).
Proof.
  intros Hset Hnd Hnot Hdone Hloop.
  destruct (main_loop_keeps no_edge_twice fuel loc st out)
    as (_ & (_ & _ & Hout) & _); [|done|done|done].
  intros loc0 done0. by apply no_edge_twice_bookkeeping.
Qed.



(** When the loop raises, the log has gained [evaluating] records only. *)
Lemma main_loop_raise_log fuel loc st exn st' :
  loops loc < MAX_NUMBER_OF_LOOPS →
  loop fuel loc st = Some (Raise exn st') →
  ∃ ns n, log st' = log st ++ (InfoEvaluating <$> ns) ++ [InfoEvaluating (S n)].
Proof.
  revert loc st. induction fuel as [|fuel IH]; intros loc st Hlt; simpl.
  - by destruct (edges_to_render loc).
  - destruct (edges_to_render loc) as [|e0 rest] eqn:Hp; [done|].
    pose proof (loop_body_log calculate_hash run_function_multithreaded
                  list_of_set self loc st) as Hlog.
    destruct (body loc st) as [loc1 st1|exn1 st1] eqn:Hbody; simpl in Hlog.
    + pose proof (loop_body_loops _ _ _ _ _ _ _ _ Hbody) as Hloops.
      destruct (Z.geb_spec (loops loc1) MAX_NUMBER_OF_LOOPS) as [Hge|Hlt1]; [done|].
      intros (ns & n & Hl)%IH; [|done].
      exists (length (edges_to_render loc) :: ns), n.
      rewrite Hl, Hlog, <-app_assoc. done.
    + intros [= <- <-]. exists [], (length rest). rewrite Hlog, Hp. done.
Qed.

(** X17: when the method raises, the log has gained [evaluating] records
    only, the last one for the iteration that raised: neither the warning
    nor the two closing records are logged. *)
Theorem render_that_raises_logs_no_closing_record fuel st exn st' :
  render_variables_from_local_graph calculate_hash run_function_multithreaded
    list_of_set self fuel st
  = Some (Raise exn st') →
  ∃ ns n, log st' = log st ++ (InfoEvaluating <$> ns) ++ [InfoEvaluating (S n)].
Proof.
  unfold render_variables_from_local_graph.
  destruct (loop fuel (initial_locals self) st) as [[loc1 st1|exn1 st1]|] eqn:Hloop;
    [done| |done].
  intros [= <- <-]. eapply main_loop_raise_log; [|exact Hloop]. done.
Qed.

Lemma main_loop_returns fuel loc st :
  (∀ groups w, ∃ w', run_dispatch groups w = Ret tt w') →
  loops loc < MAX_NUMBER_OF_LOOPS →
  (Z.to_nat (MAX_NUMBER_OF_LOOPS - loops loc) ≤ fuel)%nat →
  ∃ loc' st', loop fuel loc st = Some (Ret loc' st').
Proof.
  intros Hok. revert loc st. induction fuel as [|fuel IH]; intros loc st Hlt Hfuel; [lia|].
  simpl. destruct (edges_to_render loc) as [|e0 rest] eqn:Hp; [by eauto|].
  destruct (loop_body_returns calculate_hash run_function_multithreaded list_of_set
              self loc st Hok) as [w' Hbody].
  pose proof (loop_body_loops _ _ _ _ _ _ _ _ Hbody) as Hloops.
  rewrite Hbody.
  destruct (Z.geb_spec
              (loops (bookkeeping list_of_set (local_graph self) loc
                        (done_edges_by_origin_vertex st)).1)
              MAX_NUMBER_OF_LOOPS) as [Hge|Hlt1]; [by eauto|].
  apply IH; [done | lia].
Qed.
End loop_more.

Lemma for_each_group_returns {World : Type}
    (evaluate : list Edge → World → outcome World unit) groups w :
  (∀ g w0, ∃ w1, evaluate g w0 = Ret tt w1) →
  ∃ w', for_each_group evaluate groups w = Ret tt w'.
Proof.
  intros Hok. revert w. induction groups as [|g groups IH]; intros w; simpl.
  - by eauto.
  - destruct (Hok g w) as [w1 ->]. apply IH.
Qed.

(** X18: with the sequential dispatch and a strategy that never raises, the
    method returns, with fuel for 50 turns or more. *)
Theorem render_returns_when_the_strategy_never_raises {World : Type}
    (calculate_hash : string → string)
    (run_function_multithreaded :
       (list (list Edge) → World → outcome World (list Edge)) →
       list (list Edge) → Z → Z → World → outcome World unit)
    (list_of_set : list Edge → list Edge)
    (self : VariableRenderer World) (extra : nat) (st : RenderState World) :
  run_async self = false →
  (∀ g w0, ∃ w1, evaluate_vertex_attribute_from_edge self g w0 = Ret tt w1) →
  ∃ st',
    render_variables_from_local_graph calculate_hash run_function_multithreaded
      list_of_set self (Z.to_nat MAX_NUMBER_OF_LOOPS + extra) st
    = Some (Ret tt st').
Proof.
  intros Hseq Hok.
  destruct (main_loop_returns calculate_hash run_function_multithreaded list_of_set
              self (Z.to_nat MAX_NUMBER_OF_LOOPS + extra) (initial_locals self) st)
    as (loc' & st' & Hloop);
    [|done|change (loops (initial_locals self)) with 0; lia|].
  - intros groups w. unfold dispatch. rewrite Hseq.
    by apply for_each_group_returns.
  - unfold render_variables_from_local_graph. rewrite Hloop. by eauto.
Qed.

(** X8: in an iteration with the sequential dispatch that returns, the
    strategy has been called once with every group of the edges to render,
    in the order of the groups, and with nothing else. *)
Theorem iteration_calls_the_strategy_once_per_group {World : Type}
    (calculate_hash : string → string)
    (run_function_multithreaded :
       (list (list Edge) → World * list (list Edge)
          → outcome (World * list (list Edge)) (list Edge)) →
       list (list Edge) → Z → Z → World * list (list Edge)
       → outcome (World * list (list Edge)) unit)
    (list_of_set : list Edge → list Edge)
    (self : VariableRenderer (World * list (list Edge)))
    (evaluate : list Edge → World → outcome World unit)
    (loc loc' : Locals) (st st' : RenderState (World * list (list Edge))) :
  run_async self = false →
  evaluate_vertex_attribute_from_edge self = traced evaluate →
  loop_body calculate_hash run_function_multithreaded list_of_set self loc st
  = Ret loc' st' →
  (world st').2
  = (world st).2
    ++ group_edges_by_origin_and_label calculate_hash (edges_to_render loc).
Proof.
  intros Hseq Hev (w' & Hd & _ & Hw & _)%loop_body_Ret.
  unfold dispatch in Hd. rewrite Hseq, Hev in Hd. rewrite Hw.
  destruct (world st) as [w tr], w' as [w1 tr1]. simpl.
  by apply for_each_group_traced_once in Hd as [-> _].
Qed.

(** ** The order and the keys of the groups *)

Section group_order.
Variable calculate_hash : string → string.
Local Abbreviation key := (origin_and_label_hash calculate_hash).
Local Abbreviation step := (group_step calculate_hash).
Local Abbreviation wg := (well_grouped calculate_hash).
Implicit Types (d : list (string * list Edge)) (e : Edge) (l : list Edge).

Lemma group_step_keys d e :
  wg d →
  (step d e).*1 = d.*1 ++ (if decide (key e ∈ d.*1) then [] else [key e]).
Proof.
  intros [Hnd Hb]. destruct (PyDict.get d (key e)) as [l|] eqn:Hget.
  - apply get_Some in Hget as (d1 & d2 & -> & Hk).
    assert ((key e, l) ∈ d1 ++ (key e, l) :: d2) as Hin
      by (apply elem_of_app; right; by left).
    destruct (Hb _ _ Hin) as [Hl _]. destruct l as [|e0 l]; [done|].
    rewrite group_step_present by done.
    rewrite decide_True; [by rewrite app_nil_r, !fmap_app|].
    rewrite fmap_app. apply elem_of_app. right. by left.
  - apply get_None in Hget. rewrite group_step_fresh by done.
    by rewrite decide_False, fmap_app by done.
Qed.

Lemma fold_group_step_keys es d :
  wg d →
  (fold_left step es d).*1 = d.*1 ++ first_occurrences d.*1 (key <$> es).
Proof.
  revert d. induction es as [|e es IH]; intros d Hd; simpl.
  - by rewrite app_nil_r.
  - rewrite IH by by apply well_grouped_step.
    rewrite group_step_keys by done.
    case_decide; [by rewrite app_nil_r | by rewrite <-app_assoc].
Qed.

Lemma bucket_head_key es d k l :
  buckets_of calculate_hash es d → (k, l) ∈ d → key <$> head l = Some k.
Proof.
  intros (_ & _ & Hb) Hin. destruct (Hb _ _ Hin) as [Hne Hfil].
  destruct l as [|e0 l]; [done|]. simpl. f_equal.
  assert (e0 ∈ filter (λ e, key e = k) es) as He by (rewrite <-Hfil; by left).
  by apply list_elem_of_filter in He as [? _].
Qed.

(** X21: the groups come in the order in which their hashes first occur in
    the input: the hashes of the first edges of the groups are the hashes of
    the input edges, each at its first occurrence. *)
Theorem groups_come_in_the_order_of_first_occurrence (edges : list Edge) :
  (λ g, key <$> head g) <$> group_edges_by_origin_and_label calculate_hash edges
  = Some <$> first_occurrences [] (key <$> edges).
Proof.
  unfold group_edges_by_origin_and_label, PyDict.values.
  pose proof (fold_group_step_keys edges [] (well_grouped_nil calculate_hash)) as Hkeys.
  simpl in Hkeys. rewrite <-Hkeys, <-!list_fmap_compose.
  apply Forall_fmap_ext_1, Forall_forall. intros [k l] Hin. simpl.
  apply (bucket_head_key edges (fold_left step edges [])); [|done].
  apply buckets_of_fold.
Qed.
End group_order.

(** X5: when [calculate_hash] is injective and no label of the input begins
    with a digit, the edges of a group have one origin and one label. *)
Theorem group_members_share_origin_and_label_when_no_label_begins_with_a_digit
    (calculate_hash : string → string) (edges g : list Edge) (e1 e2 : Edge) :
  (∀ s t, calculate_hash s = calculate_hash t → s = t) →
  (∀ e, e ∈ edges → begins_with_digit (label e) = false) →
  g ∈ group_edges_by_origin_and_label calculate_hash edges →
  e1 ∈ g → e2 ∈ g →
  origin e1 = origin e2 ∧ label e1 = label e2.
Proof.
  intros Hinj Hlabels Hg He1 He2.
  unfold group_edges_by_origin_and_label, PyDict.values in Hg.
  apply list_elem_of_fmap in Hg as ([k l] & -> & Hin). simpl in *.
  destruct (buckets_of_fold calculate_hash edges) as (_ & _ & Hb).
  destruct (Hb _ _ Hin) as [_ Hfil]. rewrite Hfil in He1, He2.
  apply list_elem_of_filter in He1 as [Hk1 Hin1].
  apply list_elem_of_filter in He2 as [Hk2 Hin2].
  apply py_str_int_then_label; [by apply Hlabels | by apply Hlabels |].
  apply Hinj. unfold origin_and_label_hash in Hk1, Hk2. congruence.
Qed.

(** ** The slots of the value cache *)

Section replace_cache_more.
Context {Value : Type}.
Implicit Types (h : ReplaceCache.store (Value:=Value)).

(** X19: after [__init__] the cache has one slot for every vertex, every
    slot is the empty dict, and an index past the last vertex raises
    [IndexError]. *)
Theorem replace_cache_has_one_empty_slot_per_vertex (n : nat) h :
  let '(replace_cache, h0) := ReplaceCache.init_replace_cache n h in
  length replace_cache = n
  ∧ (∀ v, (v < n)%nat → ReplaceCache.slot replace_cache v h0 = Some ∅)
  ∧ (∀ v, (n ≤ v)%nat → ReplaceCache.slot replace_cache v h0 = None).
Proof.
  unfold ReplaceCache.init_replace_cache, ReplaceCache.new_dict.
  rewrite list_mul_singleton. split_and!.
  - apply length_replicate.
  - intros v Hv. unfold ReplaceCache.slot.
    rewrite lookup_replicate_2 by done. simpl. by apply list_lookup_middle.
  - intros v Hv. unfold ReplaceCache.slot.
    assert (replicate n (length h) !! v = None) as Hnone
      by (apply lookup_replicate_None; lia).
    unfold ReplaceCache.addr. by rewrite Hnone.
Qed.

(** X20: the slots of the cache are one dict: after [__init__], an item
    written through the slot of any vertex is read through the slot of
    every vertex. *)
Theorem replace_cache_write_is_read_through_every_slot
    (n u v : nat) (k : string) (x : Value) h :
  (u < n)%nat → (v < n)%nat →
  let '(replace_cache, h0) := ReplaceCache.init_replace_cache n h in
  ∃ h1, ReplaceCache.slot_setitem replace_cache u k x h0 = Some h1
        ∧ ReplaceCache.slot replace_cache v h1 = Some {[k := x]}.
Proof. apply init_replace_cache_slots_alias. Qed.
End replace_cache_more.

(** ** Instances of the further properties *)

(** X2, at three edges of two hashes. *)
Lemma group_is_the_edges_of_one_hash_in_input_order_witness :
  let edges := [mkEdge 1 5 "x"; mkEdge 2 5 "y"; mkEdge 1 6 "x"] in
  let g := [mkEdge 1 5 "x"; mkEdge 1 6 "x"] in
  g ∈ group_edges_by_origin_and_label id edges
  ∧ g ≠ []
  ∧ ∃ k, g = filter (λ e, origin_and_label_hash id e = k) edges.
Proof.
  intros edges g.
  assert (g ∈ group_edges_by_origin_and_label id edges) as Hg
    by (change (g ∈ [g; [mkEdge 2 5 "y"]]); by left).
  split; [exact Hg|].
  exact (group_is_the_edges_of_one_hash_in_input_order id edges g Hg).
Defined.

(** X3, at two edges of the first group. *)
Lemma edges_of_one_hash_share_one_group_witness :
  let edges := [mkEdge 1 5 "x"; mkEdge 2 5 "y"; mkEdge 1 6 "x"] in
  let g := [mkEdge 1 5 "x"; mkEdge 1 6 "x"] in
  group_edges_by_origin_and_label id edges !! 0%nat = Some g
  ∧ mkEdge 1 5 "x" ∈ g ∧ mkEdge 1 6 "x" ∈ g
  ∧ origin_and_label_hash id (mkEdge 1 5 "x")
    = origin_and_label_hash id (mkEdge 1 6 "x")
  ∧ 0%nat = 0%nat.
Proof.
  intros edges g.
  assert (group_edges_by_origin_and_label id edges !! 0%nat = Some g) as H0
    by reflexivity.
  assert (mkEdge 1 5 "x" ∈ g) as H1 by by left.
  assert (mkEdge 1 6 "x" ∈ g) as H2 by (right; by left).
  split; [exact H0|]. split; [exact H1|]. split; [exact H2|].
  split; [reflexivity|].
  exact (edges_of_one_hash_share_one_group id edges 0 0 g g _ _ H0 H0 H1 H2
           eq_refl).
Defined.

(** X4, at two edges with origin 1 and label x that another edge separates. *)
Lemma edges_of_one_origin_and_label_are_grouped_together_witness :
  let edges := [mkEdge 1 5 "x"; mkEdge 2 5 "y"; mkEdge 1 6 "x"] in
  mkEdge 1 5 "x" ∈ edges ∧ mkEdge 1 6 "x" ∈ edges
  ∧ ∃ g, g ∈ group_edges_by_origin_and_label id edges
         ∧ mkEdge 1 5 "x" ∈ g ∧ mkEdge 1 6 "x" ∈ g.
Proof.
  intros edges.
  assert (mkEdge 1 5 "x" ∈ edges) as H1 by by left.
  assert (mkEdge 1 6 "x" ∈ edges) as H2 by (right; right; by left).
  split; [exact H1|]. split; [exact H2|].
  exact (edges_of_one_origin_and_label_are_grouped_together id edges _ _ H1 H2
           eq_refl eq_refl).
Defined.

(** X5, with the identity as hash and labels that begin with a letter. *)
Lemma group_members_share_origin_and_label_witness :
  let edges := [mkEdge 1 5 "x"; mkEdge 2 5 "y"; mkEdge 1 6 "x"] in
  let g := [mkEdge 1 5 "x"; mkEdge 1 6 "x"] in
  (∀ s t : string, id s = id t → s = t)
  ∧ (∀ e, e ∈ edges → begins_with_digit (label e) = false)
  ∧ g ∈ group_edges_by_origin_and_label id edges
  ∧ origin (mkEdge 1 5 "x") = origin (mkEdge 1 6 "x")
  ∧ label (mkEdge 1 5 "x") = label (mkEdge 1 6 "x").
Proof.
  intros edges g.
  assert (∀ s t : string, id s = id t → s = t) as Hinj by (intros s t H; exact H).
  assert (∀ e, e ∈ edges → begins_with_digit (label e) = false) as Hlabels.
  { intros e He. repeat (apply elem_of_cons in He as [->|He]); try reflexivity.
    by apply elem_of_nil in He. }
  assert (g ∈ group_edges_by_origin_and_label id edges) as Hg
    by (change (g ∈ [g; [mkEdge 2 5 "y"]]); by left).
  split; [exact Hinj|]. split; [exact Hlabels|]. split; [exact Hg|].
  refine (group_members_share_origin_and_label_when_no_label_begins_with_a_digit
            id edges g _ _ Hinj Hlabels Hg _ _); [by left | right; by left].
Defined.

(** X6, at three groups of which the second fails. *)
Lemma sequential_dispatch_raises_what_the_strategy_raised_witness :
  let groups := [[mkEdge 0 3 "a"]; [mkEdge 1 3 "b"]; [mkEdge 2 3 "c"]] in
  for_each_group (evaluate_failing_at 1) groups tt
  = Raise (StrategyError "unresolvable") tt
  ∧ ∃ before failing after w1,
      groups = before ++ failing :: after
      ∧ for_each_group (evaluate_failing_at 1) before tt = Ret tt w1
      ∧ evaluate_failing_at 1 failing w1
        = Raise (StrategyError "unresolvable") tt.
Proof.
  intros groups. split; [reflexivity|].
  exact (sequential_dispatch_raises_what_the_strategy_raised
           (evaluate_failing_at 1) groups tt _ tt eq_refl).
Defined.

(** X7, at two groups and a strategy that writes nothing. *)
Lemma sequential_dispatch_calls_the_strategy_once_per_group_witness :
  let groups := [[mkEdge 0 3 "a"]; [mkEdge 1 3 "b"]] in
  for_each_group (traced evaluate_nothing) groups (tt, []) = Ret tt (tt, groups)
  ∧ groups = [] ++ groups
  ∧ for_each_group evaluate_nothing groups tt = Ret tt tt.
Proof.
  intros groups. split; [reflexivity|].
  exact (sequential_dispatch_calls_the_strategy_once_per_group
           evaluate_nothing groups tt [] tt groups eq_refl).
Defined.

(** X8, at the graph 0→1. *)
Lemma iteration_calls_the_strategy_once_per_group_witness :
  let self := traced_renderer 2 [mkEdge 0 1 "a"] in
  let loc := mkLocals [1] [mkEdge 0 1 "a"] 0 in
  let st' :=
    mkRenderState (tt, [[mkEdge 0 1 "a"]]) {[0 := [mkEdge 0 1 "a"]]}
      [InfoEvaluating 1] in
  initial_locals self = loc
  ∧ run_async self = false
  ∧ evaluate_vertex_attribute_from_edge self = traced evaluate_nothing
  ∧ loop_body id run_function_multithreaded_spec remove_dups self loc
      (initial_state (tt, []))
    = Ret (mkLocals [1; 0] [] 1) st'
  ∧ (world st').2
    = (world (initial_state (tt, []) : RenderState (unit * list (list Edge)))).2
      ++ group_edges_by_origin_and_label id (edges_to_render loc).
Proof.
  intros self loc st'.
  assert (loop_body id run_function_multithreaded_spec remove_dups self loc
            (initial_state (tt, [])) = Ret (mkLocals [1; 0] [] 1) st') as Hbody
    by (vm_compute; reflexivity).
  split; [reflexivity|]. split; [reflexivity|]. split; [reflexivity|].
  split; [exact Hbody|].
  exact (iteration_calls_the_strategy_once_per_group id
           run_function_multithreaded_spec remove_dups self evaluate_nothing
           loc _ (initial_state (tt, [])) st' eq_refl eq_refl Hbody).
Defined.

(** X11, with [remove_dups] as the listing, after the first iteration on the
    chain 0→1→2→3. *)
Lemma next_edges_are_undone_in_edges_listed_once_witness :
  let graph := local_graph (plain_renderer 4 (chain_edges "a" "b" "c")) in
  let done : gmap Z (list Edge) := {[2 := [mkEdge 2 3 "c"]]} in
  set_listing remove_dups
  ∧ next_edges_to_render remove_dups graph done [3; 2] = [mkEdge 1 2 "b"]
  ∧ NoDup (next_edges_to_render remove_dups graph done [3; 2])
  ∧ ∀ e, e ∈ next_edges_to_render remove_dups graph done [3; 2]
         ↔ e ∈ get_in_edges graph [3; 2] ∧ e ∉ done_get done (origin e).
Proof.
  intros graph done. split; [exact set_listing_remove_dups|].
  split; [vm_compute; reflexivity|].
  exact (next_edges_are_undone_in_edges_listed_once remove_dups graph done
           [3; 2] set_listing_remove_dups).
Defined.

(** X12, at the chain 0→1→2→3 from the state after [__init__]. *)
Lemma done_edges_are_filed_under_their_origin_witness :
  let self := plain_renderer 4 (chain_edges "a" "b" "c") in
  ∃ out,
    (∀ v e, e ∈ done_get (done_edges_by_origin_vertex (initial_state tt)) v →
            origin e = v)
    ∧ main_loop id run_function_multithreaded_spec remove_dups self 50
        (initial_locals self) (initial_state tt)
      = Some out
    ∧ done_get (done_edges_by_origin_vertex (outcome_state out)) 1
      = [mkEdge 1 2 "b"]
    ∧ ∀ v e,
        e ∈ done_get (done_edges_by_origin_vertex (outcome_state out)) v →
        origin e = v.
Proof.
  intros self.
  assert (∀ v e, e ∈ done_get (done_edges_by_origin_vertex
                                 (initial_state tt : RenderState unit)) v →
                 origin e = v) as Hinit.
  { intros v e He. unfold done_get in He. simpl in He.
    rewrite lookup_empty in He. by apply elem_of_nil in He. }
  destruct (main_loop id run_function_multithreaded_spec remove_dups self 50
              (initial_locals self) (initial_state tt)) as [out|] eqn:Hloop;
    [|vm_compute in Hloop; discriminate Hloop].
  exists out. split; [exact Hinit|]. split; [reflexivity|]. split.
  - pose proof Hloop as Hrun. vm_compute in Hrun. injection Hrun as <-.
    vm_compute. reflexivity.
  - exact (done_edges_are_filed_under_their_origin id
             run_function_multithreaded_spec remove_dups self 50
             (initial_locals self) (initial_state tt) out Hinit Hloop).
Defined.

(** X13, at the chain 0→1→2→3 entered after its first iteration. *)
Lemma done_edges_only_grow_witness :
  let self := plain_renderer 4 (chain_edges "a" "b" "c") in
  let loc := mkLocals [3; 2] [mkEdge 1 2 "b"] 1 in
  let st := mkRenderState tt {[2 := [mkEdge 2 3 "c"]]} [InfoEvaluating 1] in
  ∃ out,
    main_loop id run_function_multithreaded_spec remove_dups self 50 loc st
    = Some out
    ∧ done_get (done_edges_by_origin_vertex st) 2 = [mkEdge 2 3 "c"]
    ∧ done_get (done_edges_by_origin_vertex st) 2
      `prefix_of` done_get (done_edges_by_origin_vertex (outcome_state out)) 2.
Proof.
  intros self loc st.
  destruct (main_loop id run_function_multithreaded_spec remove_dups self 50
              loc st) as [out|] eqn:Hloop;
    [|vm_compute in Hloop; discriminate Hloop].
  exists out. split; [reflexivity|]. split; [reflexivity|].
  exact (done_edges_only_grow id run_function_multithreaded_spec remove_dups
           self 50 loc st out 2 Hloop).
Defined.

(** X14, at the chain 0→1→2→3. *)
Lemma end_vertices_only_grow_witness :
  let self := plain_renderer 4 (chain_edges "a" "b" "c") in
  ∃ st',
    main_loop id run_function_multithreaded_spec remove_dups self 50
      (initial_locals self) (initial_state tt)
    = Some (Ret (mkLocals [3; 2; 1; 0] [] 3) st')
    ∧ end_vertices_indexes (initial_locals self) = [3]
    ∧ end_vertices_indexes (initial_locals self)
      `prefix_of` end_vertices_indexes (mkLocals [3; 2; 1; 0] [] 3).
Proof.
  intros self.
  destruct (main_loop id run_function_multithreaded_spec remove_dups self 50
              (initial_locals self) (initial_state tt))
    as [[loc' st'|exn st']|] eqn:Hloop;
    try (vm_compute in Hloop; discriminate Hloop).
  assert (loc' = mkLocals [3; 2; 1; 0] [] 3) as ->.
  { pose proof Hloop as Hrun. vm_compute in Hrun. by injection Hrun as <- _. }
  exists st'. split; [reflexivity|]. split; [reflexivity|].
  exact (end_vertices_only_grow id run_function_multithreaded_spec remove_dups
           self 50 (initial_locals self) (initial_state tt) _ st' Hloop).
Defined.

(** X15, at the chain 0→1→2→3 from the state after [__init__]. *)
Lemma no_edge_is_recorded_twice_witness :
  let self := plain_renderer 4 (chain_edges "a" "b" "c") in
  ∃ out,
    set_listing remove_dups
    ∧ NoDup (edges_to_render (initial_locals self))
    ∧ (∀ e, e ∈ edges_to_render (initial_locals self) →
            e ∉ done_get (done_edges_by_origin_vertex (initial_state tt))
                  (origin e))
    ∧ (∀ v, NoDup (done_get (done_edges_by_origin_vertex
                               (initial_state tt : RenderState unit)) v))
    ∧ main_loop id run_function_multithreaded_spec remove_dups self 50
        (initial_locals self) (initial_state tt)
      = Some out
    ∧ ∀ v, NoDup (done_get (done_edges_by_origin_vertex (outcome_state out)) v).
Proof.
  intros self.
  assert (∀ v, done_get (done_edges_by_origin_vertex
                           (initial_state tt : RenderState unit)) v = []) as Hempty.
  { intros v. unfold done_get. simpl. by rewrite lookup_empty. }
  assert (NoDup (edges_to_render (initial_locals self))) as Hnd
    by (change (NoDup [mkEdge 2 3 "c"]); apply NoDup_singleton).
  assert (∀ e, e ∈ edges_to_render (initial_locals self) →
               e ∉ done_get (done_edges_by_origin_vertex
                               (initial_state tt : RenderState unit)) (origin e))
    as Hnot by (intros e _; rewrite Hempty; apply not_elem_of_nil).
  assert (∀ v, NoDup (done_get (done_edges_by_origin_vertex
                                  (initial_state tt : RenderState unit)) v))
    as Hdone by (intros v; rewrite Hempty; constructor).
  destruct (main_loop id run_function_multithreaded_spec remove_dups self 50
              (initial_locals self) (initial_state tt)) as [out|] eqn:Hloop;
    [|vm_compute in Hloop; discriminate Hloop].
  exists out. split; [exact set_listing_remove_dups|]. split; [exact Hnd|].
  split; [exact Hnot|]. split; [exact Hdone|]. split; [reflexivity|].
  exact (no_edge_is_recorded_twice id run_function_multithreaded_spec
           remove_dups self 50 (initial_locals self) (initial_state tt) out
           set_listing_remove_dups Hnd Hnot Hdone Hloop).
Defined.


(** X17, at the graph 0→1 with a strategy that raises for vertex 0. *)
Lemma render_that_raises_logs_no_closing_record_witness :
  let self := failing_renderer 2 [mkEdge 0 1 "a"] 0 in
  let st' := mkRenderState tt ∅ [InfoEvaluating 1] in
  render_variables_from_local_graph id run_function_multithreaded_spec
    remove_dups self 50 (initial_state tt)
  = Some (Raise (StrategyError "unresolvable") st')
  ∧ ∃ ns n,
      log st' = log (initial_state tt : RenderState unit)
                ++ (InfoEvaluating <$> ns) ++ [InfoEvaluating (S n)].
Proof.
  intros self st'.
  assert (render_variables_from_local_graph id run_function_multithreaded_spec
            remove_dups self 50 (initial_state tt)
          = Some (Raise (StrategyError "unresolvable") st')) as Hrender
    by (vm_compute; reflexivity).
  split; [exact Hrender|].
  exact (render_that_raises_logs_no_closing_record id
           run_function_multithreaded_spec remove_dups self 50
           (initial_state tt) _ st' Hrender).
Defined.

(** X18, at the chain 0→1→2→3 with a strategy that writes nothing. *)
Lemma render_returns_when_the_strategy_never_raises_witness :
  let self := plain_renderer 4 (chain_edges "a" "b" "c") in
  run_async self = false
  ∧ (∀ g (w0 : unit), ∃ w1,
       evaluate_vertex_attribute_from_edge self g w0 = Ret tt w1)
  ∧ ∃ st',
      render_variables_from_local_graph id run_function_multithreaded_spec
        remove_dups self (Z.to_nat MAX_NUMBER_OF_LOOPS + 0) (initial_state tt)
      = Some (Ret tt st').
Proof.
  intros self.
  assert (∀ g (w0 : unit), ∃ w1,
            evaluate_vertex_attribute_from_edge self g w0 = Ret tt w1) as Hok
    by (intros g w0; by exists w0).
  split; [reflexivity|]. split; [exact Hok|].
  exact (render_returns_when_the_strategy_never_raises id
           run_function_multithreaded_spec remove_dups self 0 (initial_state tt)
           eq_refl Hok).
Defined.

(** X20, at a graph of three vertices: a write through the slot of vertex 0
    is read through the slot of vertex 2. *)
Lemma replace_cache_write_is_read_through_every_slot_witness :
  (0 < 3)%nat ∧ (2 < 3)%nat
  ∧ let '(replace_cache, h0) :=
      ReplaceCache.init_replace_cache (Value:=Z) 3 [] in
    ∃ h1, ReplaceCache.slot_setitem replace_cache 0 "key" 7 h0 = Some h1
          ∧ ReplaceCache.slot replace_cache 2 h1 = Some {["key" := 7]}.
Proof.
  assert (0 < 3)%nat as H0 by lia. assert (2 < 3)%nat as H2 by lia.
  split; [exact H0|]. split; [exact H2|].
  exact (replace_cache_write_is_read_through_every_slot 3 0 2 "key" 7 [] H0 H2).
Defined.

